(** * cached_method: a per-instance memoizing descriptor

    A shallow embedding of [cached_method.py] (the classes
    [WeaklyBoundMethod] and [cached_method]) together with the parts of the
    Python object model the file relies on: instance dictionaries, weak
    references, and [functools.lru_cache]. *)

From Stdlib Require Import ZArith Lia.
From stdpp Require Import base strings gmap list.

(** ** Python values

    The value universe holds the values whose Python equality is structural:
    [None], integers, strings and references to instances (compared by
    identity).  Call arguments, cached results and attribute values range
    over it. *)

Inductive Val : Type :=
  | VNone
  | VInt (z : Z)
  | VStr (s : string)
  | VRef (o : nat).

#[global] Instance Val_eq_dec : EqDecision Val.
Proof. solve_decision. Defined.

Inductive PyType : Type := TNoneType | Tint | Tstr | Tobject.

#[global] Instance PyType_eq_dec : EqDecision PyType.
Proof. solve_decision. Defined.

Definition type_of (v : Val) : PyType :=
  match v with
  | VNone => TNoneType
  | VInt _ => Tint
  | VStr _ => Tstr
  | VRef _ => Tobject
  end.


(** A plain function object: its identity and the metadata that
    [update_wrapper] copies. *)
Record Func : Type := mkFunc {
  fn_id : nat;
  fn_name : string;
  fn_doc : option string
}.

#[global] Instance Func_eq_dec : EqDecision Func.
Proof. solve_decision. Defined.

(** ** Exceptions and results *)

Inductive Exn : Type :=
  | TypeError (msg : string)
  | RuntimeError (msg : string)
  | AttributeError (msg : string)
  | SystemError (msg : string)
  | UserError (tag : string) (payload : Val).

#[global] Instance Exn_eq_dec : EqDecision Exn.
Proof. solve_decision. Defined.

Inductive Result (A : Type) : Type :=
  | Ok (a : A)
  | Raise (e : Exn).

Arguments Ok {A} a.
Arguments Raise {A} e.

Definition is_TypeError (e : Exn) : bool :=
  match e with TypeError _ => true | _ => false end.

Definition is_AttributeError (e : Exn) : bool :=
  match e with AttributeError _ => true | _ => false end.

(** [repr] of a string that needs no escaping, as [!r] prints an attribute
    or class name. *)
Definition py_repr (s : string) : string := "'" +:+ s +:+ "'".

Definition msg_reassign : string :=
  "Cannot re-assign cached_method to a different method".

Definition msg_two_names (old new : string) : string :=
  "Cannot assign the same cached_method to two different names ("
  +:+ py_repr old +:+ " and " +:+ py_repr new +:+ ").".

Definition msg_no_set_name : string :=
  "Cannot use cached_method instance without calling __set_name__ on it.".

Definition msg_no_dict (ty name : string) : string :=
  "No '__dict__' attribute on " +:+ py_repr ty
  +:+ " instance to cache " +:+ py_repr name +:+ " method.".

Definition msg_no_item_assignment (ty name : string) : string :=
  "The '__dict__' attribute on " +:+ py_repr ty +:+ " instance "
  +:+ "does not support item assignment for caching "
  +:+ py_repr name +:+ " method.".

Definition msg_collected : string :=
  "Bound object has been garbage collected and method cannot be "
  +:+ "called anymore.".

(** What [weakref.ref] raises, as a TypeError, for an object of a type
    that has no room for weak references. *)
Definition msg_no_weakref (ty : string) : string :=
  "cannot create weak reference to " +:+ py_repr ty +:+ " object".

(** ** The descriptor object

    The fields of a [cached_method] instance; [wrapped] is what
    [update_wrapper(self, self.func)] leaves on the descriptor (the
    [__wrapped__] function, whose name and documentation it exposes). *)

Record cached_method : Type := mkCM {
  func : option Func;
  methname : option string;
  maxsize : option Z;
  typed : bool;
  wrapped : option Func
}.

#[global] Instance cached_method_eq_dec : EqDecision cached_method.
Proof. solve_decision. Defined.

Definition set_func (f : option Func) (self : cached_method) : cached_method :=
  mkCM f (methname self) (maxsize self) (typed self) (wrapped self).

Definition set_methname (n : option string) (self : cached_method)
  : cached_method :=
  mkCM (func self) n (maxsize self) (typed self) (wrapped self).

Definition update_wrapper_cm (self : cached_method) (f : Func)
  : cached_method :=
  mkCM (func self) (methname self) (maxsize self) (typed self) (Some f).



(** Methods of the descriptor mutate [self]; each returns its result and
    the descriptor as the call leaves it. *)

(** [cached_method.__call__(self, func)]. *)
Definition cm_call (f : option Func) (self : cached_method)
  : Result cached_method * cached_method :=
  if bool_decide (func self ≠ None) && bool_decide (f ≠ func self)
  then (Raise (TypeError msg_reassign), self)
  else
    let self1 := set_func f self in
    let self2 :=
      match func self1 with
      | Some g => update_wrapper_cm self1 g
      | None => self1
      end in
    (Ok self2, self2).

(** [cached_method.__init__(self, func=None, /, maxsize=None, typed=False)]:
    the object as the constructor leaves it. *)
Definition cm_init (f : option Func) (ms : option Z) (ty : bool)
  : cached_method :=
  snd (cm_call f (mkCM None None ms ty None)).

(** [cached_method.__set_name__(self, owner, name)]. *)
Definition cm_set_name (owner name : string) (self : cached_method)
  : Result unit * cached_method :=
  match methname self with
  | None => (Ok tt, set_methname (Some name) self)
  | Some old =>
      if bool_decide (name ≠ old)
      then (Raise (TypeError (msg_two_names old name)), self)
      else (Ok tt, self)
  end.

(** ** Instances and their attribute stores

    What [instance.__dict__] can be: missing (a class that defines
    [__slots__]), a read-only [mappingproxy] (the instance is itself a
    class), or an ordinary [dict].  An attribute is a memoizer (an
    [lru_cache] wrapper, held by reference) or a plain value.

    [has_weakref] tells whether the type of the instance leaves room for
    weak references (a [__weakref__] slot).  Instances of ordinary classes
    have it; instances of a subclass of [tuple] or [int], or of a class
    with [__slots__ = ('__dict__',)], have a dictionary and no such
    room. *)

Inductive Attr : Type :=
  | AMemo (m : nat)
  | AVal (v : Val).

#[global] Instance Attr_eq_dec : EqDecision Attr.
Proof. solve_decision. Defined.

Inductive Store : Type :=
  | NoDict
  | MappingProxy (d : gmap string Attr)
  | Dict (d : gmap string Attr).

Record Instance : Type := mkInstance {
  type_name : string;
  dict : Store;
  has_weakref : bool
}.

(** Whether [weakref.ref(instance)] succeeds; a class can always be
    weakly referenced. *)
Definition weakly_referenceable (inst : Instance) : bool :=
  match dict inst with
  | MappingProxy _ => true
  | _ => has_weakref inst
  end.

(** The mapping behind [instance.__dict__], when there is one. *)
Definition store_items (s : Store) : option (gmap string Attr) :=
  match s with
  | NoDict => None
  | MappingProxy d => Some d
  | Dict d => Some d
  end.

(** [cache.get(name)] followed by the test [method is None]: an absent
    entry and an entry holding [None] both read as [None]. *)
Definition dict_get (name : string) (d : gmap string Attr) : option Attr :=
  match d !! name with
  | Some (AVal VNone) => None
  | o => o
  end.

(** ** WeaklyBoundMethod

    [weakref.WeakMethod(method)] keeps weak references to the bound
    method's [__self__] and [__func__]; [WeaklyBoundMethod] keeps nothing
    else. *)

Record WeakMethod : Type := mkWeakMethod {
  wm_obj : nat;
  wm_func : Func
}.

Record WeaklyBoundMethod : Type := mkWBM {
  ref : WeakMethod
}.

(** The [WeaklyBoundMethod] of function [f] bound to instance [x]. *)
Definition wbm_of (x : nat) (f : Func) : WeaklyBoundMethod :=
  mkWBM (mkWeakMethod x f).

(** [weakref.WeakMethod(method)] for the method [f] bound to instance [x],
    whose record is [inst]: a TypeError when the instance cannot be weakly
    referenced. *)
Definition weakmethod_init (inst : Instance) (x : nat) (f : Func)
  : Result WeakMethod :=
  if weakly_referenceable inst then Ok (mkWeakMethod x f)
  else Raise (TypeError (msg_no_weakref (type_name inst))).

(** [WeaklyBoundMethod.__init__(self, method)] for the bound method
    [func.__get__(instance)]; whatever [weakref.WeakMethod] raises
    propagates. *)
Definition wbm_init (inst : Instance) (x : nat) (f : Func)
  : Result WeaklyBoundMethod :=
  match weakmethod_init inst x f with
  | Ok r => Ok (mkWBM r)
  | Raise e => Raise e
  end.

(** ** The memo table of [lru_cache] *)

Definition Key : Type := list Val * list (string * Val) * list PyType.

(** The cache key of a call: the positional and keyword arguments, and
    with [typed] the type of each. *)
Definition make_key (args : list Val) (kwds : list (string * Val))
    (typed : bool) : Key :=
  (args, kwds,
   if typed then (type_of <$> args) ++ ((type_of ∘ snd) <$> kwds) else []).

(** The table lists its entries from least to most recently used. *)
Fixpoint cache_get (k : Key) (t : list (Key * Val)) : option Val :=
  match t with
  | [] => None
  | (k', v) :: t' => if decide (k' = k) then Some v else cache_get k t'
  end.

Definition cache_del (k : Key) (t : list (Key * Val)) : list (Key * Val) :=
  filter (λ e, e.1 ≠ k) t.

(** A hit promotes the entry to most recently used. *)
Definition cache_touch (k : Key) (v : Val) (t : list (Key * Val))
  : list (Key * Val) :=
  cache_del k t ++ [(k, v)].

(** Storing a result in a table bounded by [cap]: a full table first loses
    its least recently used entry. *)
Definition cache_put (cap : nat) (k : Key) (v : Val) (t : list (Key * Val))
  : list (Key * Val) :=
  if decide (length t < cap) then t ++ [(k, v)] else tail t ++ [(k, v)].

(** Modelled from the spec: [functools.lru_cache], which the source imports
    from the Python standard library and the repository does not contain.
    The record
    is the wrapper that [lru_cache(maxsize, typed)(user_function)] returns
    (spec 4.3, BoundedMemoTable): the wrapped callable, the capacity, the
    [typed] flag and the table ordered by recency of use.  A negative
    capacity counts as zero, as in functools. *)
Record lru_wrapper : Type := mkLru {
  user_function : WeaklyBoundMethod;
  lru_maxsize : option Z;
  lru_typed : bool;
  cache : list (Key * Val);
  lru_wrapped : option Func
}.

Definition lru_cache (maxsize : option Z) (typed : bool)
    (user_function : WeaklyBoundMethod) : lru_wrapper :=
  mkLru user_function (Z.max 0 <$> maxsize) typed [] None.

Definition set_cache (t : list (Key * Val)) (μ : lru_wrapper) : lru_wrapper :=
  mkLru (user_function μ) (lru_maxsize μ) (lru_typed μ) t (lru_wrapped μ).

(** [update_wrapper(method, self.func)] on the wrapper. *)
Definition update_wrapper_lru (μ : lru_wrapper) (f : Func) : lru_wrapper :=
  mkLru (user_function μ) (lru_maxsize μ) (lru_typed μ) (cache μ) (Some f).

(** One call of the underlying function, as the call log records it. *)
Record Call : Type := mkCall {
  call_func : Func;
  call_self : nat;
  call_args : list Val;
  call_kwds : list (string * Val)
}.

#[global] Instance Call_eq_dec : EqDecision Call.
Proof. solve_decision. Defined.

(** ** The world: heap, memoizers, call log

    [heap] holds the live instances: an instance that has been reclaimed is
    absent, and a weak reference to it resolves to nothing.  [memos] holds
    the [lru_cache] wrappers by identity, so that the instance dictionary
    and any outside holder share one wrapper.  [calls] logs every call of
    an underlying function; [user] is whatever state those functions read
    and write. *)

Record World (U : Type) : Type := mkWorld {
  heap : gmap nat Instance;
  memos : gmap nat lru_wrapper;
  next_memo : nat;
  calls : list Call;
  user : U
}.

Arguments mkWorld {U}.
Arguments heap {U}.
Arguments memos {U}.
Arguments next_memo {U}.
Arguments calls {U}.
Arguments user {U}.

(** What [cached_method.__get__] returns: the descriptor itself, or the
    attribute found or created on the instance. *)
Inductive Got : Type :=
  | GotSelf (self : cached_method)
  | GotAttr (a : Attr).

(** Objects of the reference graph. *)
Inductive Node : Type :=
  | NInst (x : nat)
  | NMemo (m : nat).

#[global] Instance Node_eq_dec : EqDecision Node.
Proof. solve_decision. Defined.

Definition type_repr (t : PyType) : string :=
  match t with
  | TNoneType => "NoneType"
  | Tint => "int"
  | Tstr => "str"
  | Tobject => "object"
  end.

Section Model.

Context {U : Type}.

(** The semantics of the underlying functions: [run f self args kwds u]
    is what [f(self, *args, **kwds)] returns or raises in user state [u],
    and the user state it leaves.  The function touches nothing else. *)
Variable run :
  Func → nat → list Val → list (string * Val) → U → Result Val * U.

(** Computations over the world, which may raise. *)
Definition M (A : Type) : Type := World U → Result A * World U.

Definition ret {A} (a : A) : M A := λ W, (Ok a, W).

Definition raise {A} (e : Exn) : M A := λ W, (Raise e, W).

(** A step that returns or raises without touching the world. *)
Definition lift {A} (r : Result A) : M A := λ W, (r, W).

Definition bind {A B} (c : M A) (k : A → M B) : M B :=
  λ W, match c W with
       | (Ok a, W') => k a W'
       | (Raise e, W') => (Raise e, W')
       end.

Notation "x <~ c ;; k" := (bind c (λ x, k))
  (at level 100, c at next level, right associativity).
Notation "c ;;; k" := (bind c (λ _, k))
  (at level 100, right associativity).

Definition set_heap (h : gmap nat Instance) (W : World U) : World U :=
  mkWorld h (memos W) (next_memo W) (calls W) (user W).

Definition set_memos (ms : gmap nat lru_wrapper) (W : World U) : World U :=
  mkWorld (heap W) ms (next_memo W) (calls W) (user W).

Definition set_user (u : U) (W : World U) : World U :=
  mkWorld (heap W) (memos W) (next_memo W) (calls W) u.

(** A strong reference to a live instance. *)
Definition get_instance (x : nat) : M Instance :=
  λ W, match heap W !! x with
       | Some inst => (Ok inst, W)
       | None => (Raise (SystemError "no such instance"), W)
       end.

Definition get_memo (m : nat) : M lru_wrapper :=
  λ W, match memos W !! m with
       | Some μ => (Ok μ, W)
       | None => (Raise (SystemError "no such wrapper"), W)
       end.

Definition put_memo (m : nat) (μ : lru_wrapper) : M unit :=
  λ W, (Ok tt, set_memos (<[m := μ]> (memos W)) W).

(** A new wrapper object. *)
Definition alloc_memo (μ : lru_wrapper) : M nat :=
  λ W, (Ok (next_memo W),
        mkWorld (heap W) (<[next_memo W := μ]> (memos W))
                (S (next_memo W)) (calls W) (user W)).

(** [try: c except E: h], for the exceptions [E] that [catches] accepts. *)
Definition try_except {A} (c : M A) (catches : Exn → bool) (h : M A) : M A :=
  λ W, match c W with
       | (Raise e, W') => if catches e then h W' else (Raise e, W')
       | r => r
       end.

(** [instance.__dict__]: the mapping, or an AttributeError. *)
Definition load_dict (inst : Instance) : M (gmap string Attr) :=
  match store_items (dict inst) with
  | Some d => ret d
  | None =>
      raise (AttributeError
        (py_repr (type_name inst) +:+ " object has no attribute '__dict__'"))
  end.

(** [cache[name] = method]: an ordinary dictionary takes the item, a
    [mappingproxy] raises a TypeError. *)
Definition dict_setitem (x : nat) (name : string) (a : Attr) : M unit :=
  λ W, match heap W !! x with
       | Some inst =>
           match dict inst with
           | Dict d =>
               (Ok tt,
                set_heap (<[x := mkInstance (type_name inst)
                                   (Dict (<[name := a]> d))
                                   (has_weakref inst)]> (heap W)) W)
           | _ =>
               (Raise (TypeError
                  "'mappingproxy' object does not support item assignment"),
                W)
           end
       | None => (Raise (SystemError "no such instance"), W)
       end.

(** The call [func(instance, *args, **kwds)] of the underlying function. *)
Definition call_method (f : Func) (x : nat) (args : list Val)
    (kwds : list (string * Val)) : M Val :=
  λ W, let '(r, u) := run f x args kwds (user W) in
       (r, mkWorld (heap W) (memos W) (next_memo W)
                   (calls W ++ [mkCall f x args kwds]) u).

(** [self.ref()]: the bound method, unless the instance is gone. *)
Definition weakmethod_deref (r : WeakMethod) (W : World U)
  : option (nat * Func) :=
  match heap W !! wm_obj r with
  | Some _ => Some (wm_obj r, wm_func r)
  | None => None
  end.

(** [WeaklyBoundMethod.__call__(self, *args, **kwargs)]. *)
Definition wbm_call (self : WeaklyBoundMethod) (args : list Val)
    (kwds : list (string * Val)) : M Val :=
  λ W, match weakmethod_deref (ref self) W with
       | None => (Raise (RuntimeError msg_collected), W)
       | Some (x, f) => call_method f x args kwds W
       end.

(** Modelled from the spec: the call of an [lru_cache] wrapper
    ([functools], not in the repository), after spec 4.3: a hit returns the
    stored
    value and promotes the entry; a miss calls the underlying callable and
    stores the result as most recently used, evicting the least recently
    used entry of a full table; without a capacity nothing is evicted; an
    error of the callable propagates and nothing is stored.  With capacity
    zero, which the spec leaves open, nothing is kept, as in functools. *)
Definition lru_wrapper_call (m : nat) (args : list Val)
    (kwds : list (string * Val)) : M Val :=
  μ <~ get_memo m ;;
  let key := make_key args kwds (lru_typed μ) in
  match lru_maxsize μ with
  | None =>
      match cache_get key (cache μ) with
      | Some r => ret r
      | None =>
          r <~ wbm_call (user_function μ) args kwds ;;
          μ' <~ get_memo m ;;
          put_memo m
            (set_cache (cache_del key (cache μ') ++ [(key, r)]) μ') ;;;
          ret r
      end
  | Some cap =>
      if decide (cap ≤ 0)%Z then wbm_call (user_function μ) args kwds
      else
        match cache_get key (cache μ) with
        | Some r =>
            put_memo m (set_cache (cache_touch key r (cache μ)) μ) ;;;
            ret r
        | None =>
            r <~ wbm_call (user_function μ) args kwds ;;
            μ' <~ get_memo m ;;
            match cache_get key (cache μ') with
            | Some _ => ret r
            | None =>
                put_memo m
                  (set_cache
                     (cache_put (Z.to_nat cap) key r (cache μ')) μ') ;;;
                ret r
            end
        end
  end.

(** [cached_method.__get__(self, instance, owner=None)].  The wrapper is
    created outside the two [try] blocks: [self.func.__get__] on a
    descriptor without a function, and then [WeaklyBoundMethod] on an
    instance that cannot be weakly referenced, raise before anything is
    allocated, and what they raise is not translated. *)
Definition cm_get (self : cached_method) (instance : option nat) : M Got :=
  match instance with
  | None => ret (GotSelf self)
  | Some x =>
      match methname self with
      | None => raise (TypeError msg_no_set_name)
      | Some name =>
          inst <~ get_instance x ;;
          cache <~ try_except (load_dict inst) is_AttributeError
                     (raise (TypeError (msg_no_dict (type_name inst) name))) ;;
          match dict_get name cache with
          | Some method => ret (GotAttr method)
          | None =>
              let methodcache := lru_cache (maxsize self) (typed self) in
              match func self with
              | None =>
                  raise (AttributeError
                    "'NoneType' object has no attribute '__get__'")
              | Some f =>
                  w <~ lift (wbm_init inst x f) ;;
                  m <~ alloc_memo (update_wrapper_lru (methodcache w) f) ;;
                  try_except (dict_setitem x name (AMemo m)) is_TypeError
                    (raise (TypeError
                       (msg_no_item_assignment (type_name inst) name))) ;;;
                  ret (GotAttr (AMemo m))
              end
          end
      end
  end.

(** The attribute lookup [x.attr] on an instance whose type exposes the
    descriptor under [attr]: the descriptor defines no [__set__], so an
    entry of the instance dictionary comes first and [__get__] runs only
    when there is none. *)
Definition getattr (self : cached_method) (attr : string) (x : nat)
  : M Attr :=
  inst <~ get_instance x ;;
  match store_items (dict inst) ≫= (.!! attr) with
  | Some a => ret a
  | None =>
      g <~ cm_get self (Some x) ;;
      match g with
      | GotAttr a => ret a
      | GotSelf _ => raise (SystemError "descriptor returned for an instance")
      end
  end.

(** Calling what the lookup returned. *)
Definition call_attr (a : Attr) (args : list Val)
    (kwds : list (string * Val)) : M Val :=
  match a with
  | AMemo m => lru_wrapper_call m args kwds
  | AVal v =>
      raise (TypeError
        (py_repr (type_repr (type_of v)) +:+ " object is not callable"))
  end.

(** The call [x.attr(args..., kwds...)]. *)
Definition invoke (self : cached_method) (attr : string) (x : nat)
    (args : list Val) (kwds : list (string * Val)) : M Val :=
  a <~ getattr self attr x ;;
  call_attr a args kwds.

(** The instance is reclaimed: it leaves the heap, its dictionary with it. *)
Definition reclaim (x : nat) (W : World U) : World U :=
  set_heap (delete x (heap W)) W.

End Model.

(** ** Notions used by the statements *)

(** The descriptor is installed: it has a name and wraps a function. *)
Definition attached (self : cached_method) (name : string) (f : Func) : Prop :=
  methname self = Some name ∧ func self = Some f.

(** The capacity the binder API of the spec admits: unset, or positive. *)
Definition capacity_ok (self : cached_method) : Prop :=
  maxsize self = None ∨ ∃ k, maxsize self = Some k ∧ (1 ≤ k)%Z.

(** The wrapper [__get__] builds for instance [x], holding table [t]. *)
Definition memo_for (self : cached_method) (x : nat) (f : Func)
    (t : list (Key * Val)) : lru_wrapper :=
  set_cache t
    (update_wrapper_lru
       (lru_cache (maxsize self) (typed self) (wbm_of x f)) f).

(** The wrapper an instance holds under [name], and what it has cached. *)
Definition instance_memo {U} (name : string) (W : World U) (x : nat)
  : option lru_wrapper :=
  inst ← heap W !! x;
  d ← store_items (dict inst);
  a ← d !! name;
  match a with
  | AMemo m => memos W !! m
  | AVal _ => None
  end.

Definition cached_result {U} (name : string) (W : World U) (x : nat) (k : Key)
  : option Val :=
  μ ← instance_memo name W x; cache_get k (cache μ).

(** The table behind [x.name]; empty while no wrapper is installed. *)
Definition instance_table {U} (name : string) (W : World U) (x : nat)
  : list (Key * Val) :=
  default [] (cache <$> instance_memo name W x).

(** Worlds as the descriptor leaves them: wrapper identities at or above
    [next_memo] are unused, and whatever an instance holds under the bound
    name is a wrapper that [__get__] built for that instance. *)
Definition wf_world {U} (self : cached_method) (name : string) (f : Func)
    (W : World U) : Prop :=
  (∀ m, next_memo W ≤ m → memos W !! m = None) ∧
  (∀ x inst d a,
     heap W !! x = Some inst → store_items (dict inst) = Some d →
     d !! name = Some a →
     ∃ m t, a = AMemo m ∧ memos W !! m = Some (memo_for self x f t)).

(** One call against a table: the result, the table it leaves, and whether
    the underlying function was called; [ro] is what that function returns
    or raises when called. *)
Definition lru_step (cap : option Z) (k : Key) (t : list (Key * Val))
    (ro : Result Val) : Result Val * list (Key * Val) * bool :=
  match cap with
  | None =>
      match cache_get k t with
      | Some r => (Ok r, t, false)
      | None =>
          match ro with
          | Ok r => (Ok r, t ++ [(k, r)], true)
          | Raise e => (Raise e, t, true)
          end
      end
  | Some c =>
      if decide (c ≤ 0)%Z then (ro, t, true)
      else
        match cache_get k t with
        | Some r => (Ok r, cache_touch k r t, false)
        | None =>
            match ro with
            | Ok r => (Ok r, cache_put (Z.to_nat c) k r t, true)
            | Raise e => (Raise e, t, true)
            end
        end
  end.

(** A caller making the calls [cs] on [x.attr] one after the other. *)
Definition invoke_seq {U}
    (run : Func → nat → list Val → list (string * Val) → U → Result Val * U)
    (self : cached_method) (attr : string) (x : nat)
    (cs : list (list Val * list (string * Val))) (W : World U) : World U :=
  foldl (λ W c, (invoke run self attr x c.1 c.2 W).2) W cs.

(** A capacity that keeps something: unset, or at least one. *)
Definition keeps (cap : option Z) : Prop :=
  match cap with
  | None => True
  | Some c => (1 ≤ c)%Z
  end.

(** The descriptor exposes the metadata of the function it wraps. *)
Definition cm_wf (self : cached_method) : Prop := wrapped self = func self.


(** The keys of a bounded table of capacity [n], from least to most
    recently used, after one successful call with key [k]. *)
Definition keys_step (n : nat) (l : list Key) (k : Key) : list Key :=
  if decide (k ∈ l) then filter (λ k', k' ≠ k) l ++ [k]
  else if decide (length l < n) then l ++ [k]
  else tail l ++ [k].

(** What an invocation returns or raises, from the instance, the table it
    holds and what the underlying function would return. *)
Definition invoke_outcome (self : cached_method) (name : string)
    (inst : option Instance) (t : list (Key * Val))
    (key : Key) (ro : Result Val) : Result Val :=
  match inst with
  | None => Raise (SystemError "no such instance")
  | Some inst =>
      match dict inst with
      | NoDict => Raise (TypeError (msg_no_dict (type_name inst) name))
      | MappingProxy d =>
          match d !! name with
          | None =>
              Raise (TypeError (msg_no_item_assignment (type_name inst) name))
          | Some _ => (lru_step (Z.max 0 <$> maxsize self) key t ro).1.1
          end
      | Dict d =>
          match d !! name with
          | None =>
              if weakly_referenceable inst
              then (lru_step (Z.max 0 <$> maxsize self) key t ro).1.1
              else Raise (TypeError (msg_no_weakref (type_name inst)))
          | Some _ => (lru_step (Z.max 0 <$> maxsize self) key t ro).1.1
          end
      end
  end.

(** The underlying function returns on these arguments, in every user
    state: the call is an insertion when it misses. *)
Definition always_returns {U}
    (run : Func → nat → list Val → list (string * Val) → U → Result Val * U)
    (f : Func) (x : nat) (c : list Val * list (string * Val)) : Prop :=
  ∀ u, ∃ r u', run f x c.1 c.2 u = (Ok r, u').

(** The world a wrapper call leaves: the table of wrapper [m] replaced, and
    the call logged when there was one. *)
Definition after_call {U} (W : World U) (m : nat) (μ : lru_wrapper)
    (called : bool) (c : Call) (u : U) : World U :=
  mkWorld (heap W) (<[m := μ]> (memos W)) (next_memo W)
          (calls W ++ if called then [c] else [])
          (if called then u else user W).

(** The world after [__get__] has created a wrapper and stored it;
    [inst'] is the instance with the dictionary it leaves. *)
Definition with_new_memo {U} (W : World U) (x : nat) (inst' : Instance)
    (μ : lru_wrapper) : World U :=
  mkWorld (<[x := inst']> (heap W)) (<[next_memo W := μ]> (memos W))
          (S (next_memo W)) (calls W) (user W).

(** The world after [__get__] has created a wrapper it could not store. *)
Definition with_lost_memo {U} (W : World U) (μ : lru_wrapper) : World U :=
  mkWorld (heap W) (<[next_memo W := μ]> (memos W))
          (S (next_memo W)) (calls W) (user W).

(** Everything outside instance [x] and the wrappers it owns is the same
    in [W1] as in [W]. *)
Definition frame_except {U} (x : nat) (W W1 : World U) : Prop :=
  (∀ y, y ≠ x → heap W1 !! y = heap W !! y) ∧
  (∀ m μ, memos W !! m = Some μ →
          wm_obj (ref (user_function μ)) ≠ x → memos W1 !! m = Some μ).

(** *** The reference graph

    Strong references keep their target alive; the only weak reference is
    the one a wrapper's [WeaklyBoundMethod] holds to its instance.  The
    difference shows in [collect] below: the collector follows strong
    references only, and a weak reference to a reclaimed instance no
    longer resolves ([weakmethod_deref]). *)









(** *** Runs of operations *)






(** What happens in a world: an attribute access, an invocation, or the
    reclamation of an instance. *)
Inductive Event : Type :=
  | EGet (x : nat)
  | EInvoke (x : nat) (args : list Val) (kwds : list (string * Val))
  | EReclaim (x : nat).

Definition run_event {U}
    (run : Func → nat → list Val → list (string * Val) → U → Result Val * U)
    (self : cached_method) (attr : string) (W : World U) (e : Event)
  : World U :=
  match e with
  | EGet x => (getattr self attr x W).2
  | EInvoke x args kwds => (invoke run self attr x args kwds W).2
  | EReclaim x => reclaim x W
  end.

Definition run_events {U}
    (run : Func → nat → list Val → list (string * Val) → U → Result Val * U)
    (self : cached_method) (attr : string) (es : list Event) (W : World U)
  : World U :=
  foldl (run_event run self attr) W es.

(** Instance [x] holds wrapper [m] under [name]. *)
Definition holds_wrapper {U} (name : string) (W : World U) (x m : nat)
  : Prop :=
  ∃ inst d, heap W !! x = Some inst ∧ store_items (dict inst) = Some d ∧
            d !! name = Some (AMemo m).

(** The calls of [cs] whose key is neither in [seen] nor the key of an
    earlier call of [cs]. *)
Fixpoint first_calls (typed : bool) (seen : list Key)
    (cs : list (list Val * list (string * Val)))
  : list (list Val * list (string * Val)) :=
  match cs with
  | [] => []
  | c :: cs =>
      if decide (make_key c.1 c.2 typed ∈ seen)
      then first_calls typed seen cs
      else c :: first_calls typed (seen ++ [make_key c.1 c.2 typed]) cs
  end.

(** A table within its capacity [cap] (unset: no bound) and without
    repeated keys. *)
Definition table_ok (cap : option Z) (t : list (Key * Val)) : Prop :=
  NoDup t.*1 ∧
  match cap with
  | Some c => length t ≤ Z.to_nat c
  | None => True
  end.

(** ** A concrete program, for the examples

    Function 0 is the [compute(self, arg)] of the test-suite, which counts
    its calls and returns its argument; function 1 takes no argument and
    returns [self]; any other call raises. *)

Definition ex_compute : Func := mkFunc 0 "compute" None.

Definition ex_run (f : Func) (x : nat) (args : list Val)
    (kwds : list (string * Val)) (u : nat) : Result Val * nat :=
  match fn_id f, args with
  | 0, [v] => (Ok v, S u)
  | 1, [] => (Ok (VRef x), S u)
  | _, _ => (Raise (UserError "ValueError" VNone), S u)
  end.

(** Five instances: two ordinary ones of classes [C] and [D], one of a
    class with [__slots__], a class whose metaclass is [MyMeta], and one of
    a class [Pair] derived from [tuple], which has a dictionary and cannot
    be weakly referenced. *)
Definition ex_world : World nat :=
  mkWorld (<[0 := mkInstance "C" (Dict ∅) true]>
          (<[1 := mkInstance "D" (Dict ∅) true]>
          (<[2 := mkInstance "WithSlots" NoDict false]>
          (<[3 := mkInstance "MyMeta" (MappingProxy ∅) true]>
          (<[4 := mkInstance "Pair" (Dict ∅) false]> ∅)))))
          ∅ 0 [] 0.

(** [compute = cached_method(compute)] in the body of a class. *)
Definition ex_binder (ms : option Z) : cached_method :=
  (cm_set_name "C" "compute" (cm_init (Some ex_compute) ms false)).2.


(** The world after [compute(10)] on instance 0. *)
Definition ex_world_used : World nat :=
  (invoke ex_run (ex_binder None) "compute" 0 [VInt 10] [] ex_world).2.

(** * Properties *)

(** ** The memo table *)

Lemma cache_get_app k t1 t2 :
  cache_get k (t1 ++ t2) =
  match cache_get k t1 with Some v => Some v | None => cache_get k t2 end.
Proof.
  induction t1 as [|[k' v] t1 IH]; simpl; [done|].
  destruct (decide (k' = k)); [done|apply IH].
Qed.

Lemma cache_get_None k t : cache_get k t = None ↔ k ∉ t.*1.
Proof.
  induction t as [|[k' v] t IH]; simpl.
  - split; [intros _; apply not_elem_of_nil|done].
  - rewrite not_elem_of_cons. destruct (decide (k' = k)) as [->|Hne].
    + split; [done|]. intros [? _]. done.
    + rewrite IH. split; [|intros [_ ?]; done].
      intros ?; split; [congruence|done].
Qed.

Lemma cache_get_Some_elem k v t : cache_get k t = Some v → (k, v) ∈ t.
Proof.
  induction t as [|[k' v'] t IH]; simpl; [done|].
  destruct (decide (k' = k)) as [->|Hne].
  - intros [= ->]. apply list_elem_of_here.
  - intros H. apply list_elem_of_further, IH, H.
Qed.

Lemma cache_del_notin k t : cache_get k t = None → cache_del k t = t.
Proof.
  unfold cache_del. induction t as [|[k' v] t IH]; simpl; [done|].
  destruct (decide (k' = k)) as [->|Hne]; [done|].
  intros H. rewrite filter_cons_True by (simpl; congruence).
  by rewrite IH.
Qed.

Lemma cache_get_del k t : cache_get k (cache_del k t) = None.
Proof.
  apply cache_get_None. unfold cache_del. intros Hin.
  apply list_elem_of_fmap in Hin as ([k' v] & -> & Hin).
  apply list_elem_of_filter in Hin as [Hne _]. by apply Hne.
Qed.

Lemma cache_get_del_ne k k' t :
  k ≠ k' → cache_get k (cache_del k' t) = cache_get k t.
Proof.
  intros Hne. unfold cache_del. induction t as [|[k0 v] t IH]; simpl; [done|].
  destruct (decide (k0 = k')) as [->|Hne'].
  - rewrite filter_cons_False by (simpl; auto).
    destruct (decide (k' = k)); [congruence|done].
  - rewrite filter_cons_True by (simpl; auto). simpl.
    destruct (decide (k0 = k)); [done|apply IH].
Qed.

Lemma cache_get_tail_None k t :
  cache_get k t = None → cache_get k (tail t) = None.
Proof.
  destruct t as [|[k' v] t]; simpl; [done|].
  destruct (decide (k' = k)); [done|done].
Qed.

Lemma cache_get_single k v : cache_get k [(k, v)] = Some v.
Proof. simpl. by rewrite decide_True. Qed.

(** What a call returns stays in the table it leaves. *)
Lemma lru_step_cached cap k t ro r t' c :
  keeps cap → lru_step cap k t ro = (Ok r, t', c) → cache_get k t' = Some r.
Proof.
  unfold lru_step, keeps. intros Hk H. destruct cap as [cp|].
  - rewrite decide_False in H by lia.
    destruct (cache_get k t) as [r0|] eqn:Hg.
    + injection H as <- <- <-. unfold cache_touch.
      by rewrite cache_get_app, cache_get_del, cache_get_single.
    + destruct ro as [r0|e]; [|done]. injection H as <- <- <-.
      unfold cache_put. destruct (decide _);
        rewrite cache_get_app, ?Hg, ?cache_get_tail_None by done;
        apply cache_get_single.
  - destruct (cache_get k t) as [r0|] eqn:Hg.
    + injection H as <- <- <-. done.
    + destruct ro as [r0|e]; [|done]. injection H as <- <- <-.
      rewrite cache_get_app, Hg. apply cache_get_single.
Qed.

(** A hit returns the stored value and does not call. *)
Lemma lru_step_hit cap k t ro r :
  keeps cap → cache_get k t = Some r →
  ∃ t', lru_step cap k t ro = (Ok r, t', false).
Proof.
  unfold lru_step, keeps. intros Hk Hg. destruct cap as [cp|].
  - rewrite decide_False by lia. rewrite Hg. eauto.
  - rewrite Hg. eauto.
Qed.

(** A miss calls, and returns what the call returns. *)
Lemma lru_step_miss cap k t ro :
  cache_get k t = None →
  ∃ t', lru_step cap k t ro = (ro, t', true) ∧
        (∀ e, ro = Raise e → t' = t).
Proof.
  unfold lru_step. intros Hg. destruct cap as [cp|].
  - destruct (decide _); [eauto|]. rewrite Hg.
    destruct ro; eauto. eexists; split; [done|]. done.
  - rewrite Hg. destruct ro; eauto. eexists; split; [done|]. done.
Qed.

(** ** Calls through the wrapper *)

Section Proofs.

Context {U : Type}.
Variable run :
  Func → nat → list Val → list (string * Val) → U → Result Val * U.

Implicit Types (W : World U) (self : cached_method) (f : Func)
  (x y m : nat) (args : list Val) (kwds : list (string * Val))
  (t : list (Key * Val)).

Lemma set_memos_id W m μ :
  memos W !! m = Some μ → set_memos (<[m := μ]> (memos W)) W = W.
Proof.
  intros H. unfold set_memos. rewrite insert_id by done. by destruct W.
Qed.

Lemma after_call_quiet W m μ c u :
  memos W !! m = Some μ → after_call W m μ false c u = W.
Proof.
  intros H. unfold after_call. rewrite insert_id by done.
  rewrite app_nil_r. by destruct W.
Qed.

Lemma memo_for_cache self x f t : cache (memo_for self x f t) = t.
Proof. done. Qed.

Lemma set_cache_memo_for self x f t t' :
  set_cache t' (memo_for self x f t) = memo_for self x f t'.
Proof. done. Qed.

Lemma memo_for_owner self x f t :
  wm_obj (ref (user_function (memo_for self x f t))) = x.
Proof. done. Qed.

(** The call of a wrapper whose instance is alive follows [lru_step]. *)
Lemma lru_call_live W self x f t m inst args kwds ro u out t' called :
  memos W !! m = Some (memo_for self x f t) →
  heap W !! x = Some inst →
  run f x args kwds (user W) = (ro, u) →
  lru_step (Z.max 0 <$> maxsize self) (make_key args kwds (typed self)) t ro
    = (out, t', called) →
  lru_wrapper_call run m args kwds W =
    (out, after_call W m (memo_for self x f t') called
            (mkCall f x args kwds) u).
Proof.
  intros Hm Hx Hrun Hstep.
  assert (Hcall : wbm_call run (wbm_of x f) args kwds W =
            (ro, mkWorld (heap W) (memos W) (next_memo W)
                   (calls W ++ [mkCall f x args kwds]) u)).
  { unfold wbm_call, weakmethod_deref, call_method. simpl.
    by rewrite Hx, Hrun. }
  unfold lru_wrapper_call, bind, get_memo. rewrite Hm. simpl.
  unfold lru_step in Hstep.
  destruct (maxsize self) as [k|]; simpl in *.
  - destruct (decide (Z.max 0 k ≤ 0)%Z).
    + injection Hstep as <- <- <-. rewrite Hcall.
      unfold after_call. by rewrite insert_id.
    + destruct (cache_get _ t) as [r|] eqn:Hg.
      * injection Hstep as <- <- <-. unfold put_memo, ret, after_call.
        simpl. unfold set_memos. by rewrite app_nil_r.
      * rewrite Hcall. destruct ro as [r|e].
        -- injection Hstep as <- <- <-. simpl. rewrite Hm. simpl.
           rewrite Hg. done.
        -- injection Hstep as <- <- <-. unfold after_call.
           by rewrite insert_id.
  - destruct (cache_get _ t) as [r|] eqn:Hg.
    + injection Hstep as <- <- <-. unfold ret.
      by rewrite after_call_quiet.
    + rewrite Hcall. destruct ro as [r|e].
      * injection Hstep as <- <- <-. simpl. rewrite Hm. simpl.
        by rewrite cache_del_notin.
      * injection Hstep as <- <- <-. unfold after_call.
        by rewrite insert_id.
Qed.

(** The call of a wrapper whose instance is gone: a cached key is still
    served, any other raises, and the function is not called. *)
Lemma lru_call_dead W self x f t m args kwds :
  memos W !! m = Some (memo_for self x f t) →
  heap W !! x = None →
  cache_get (make_key args kwds (typed self)) t = None →
  lru_wrapper_call run m args kwds W = (Raise (RuntimeError msg_collected), W).
Proof.
  intros Hm Hx Hg.
  assert (Hcall : wbm_call run (wbm_of x f) args kwds W =
            (Raise (RuntimeError msg_collected), W)).
  { unfold wbm_call, weakmethod_deref. simpl. by rewrite Hx. }
  unfold lru_wrapper_call, bind, get_memo. rewrite Hm. simpl.
  destruct (maxsize self) as [k|]; simpl.
  - destruct (decide _); [done|]. by rewrite Hg, Hcall.
  - by rewrite Hg, Hcall.
Qed.

(** ** Resolving the attribute *)

Lemma frame_except_refl x W : frame_except x W W.
Proof. split; auto. Qed.

Lemma frame_except_trans x W W1 W2 :
  frame_except x W W1 → frame_except x W1 W2 → frame_except x W W2.
Proof.
  intros [Hh Hm] [Hh' Hm']. split.
  - intros y Hy. rewrite Hh', Hh; auto.
  - intros m μ H Hne. apply Hm', Hne. apply Hm; auto.
Qed.

Lemma instance_memo_Some name W x μ :
  instance_memo name W x = Some μ ↔
  ∃ inst d m, heap W !! x = Some inst ∧ store_items (dict inst) = Some d ∧
              d !! name = Some (AMemo m) ∧ memos W !! m = Some μ.
Proof.
  unfold instance_memo. split.
  - intros H. destruct (heap W !! x) as [inst|]; simpl in H; [|done].
    destruct (store_items (dict inst)) as [d|] eqn:Hs; simpl in H; [|done].
    destruct (d !! name) as [[m|v]|] eqn:Hd; simpl in H; try done.
    by exists inst, d, m.
  - intros (inst & d & m & -> & Hs & Hd & Hm). simpl. rewrite Hs. simpl.
    rewrite Hd. simpl. done.
Qed.

Lemma wf_fresh self name f W m μ :
  wf_world self name f W → memos W !! m = Some μ → m < next_memo W.
Proof.
  intros [Hfresh _] Hm. destruct (decide (m < next_memo W)); [done|].
  rewrite Hfresh in Hm by lia. done.
Qed.

Lemma wf_instance_memo self name f W x inst d a :
  wf_world self name f W →
  heap W !! x = Some inst → store_items (dict inst) = Some d →
  d !! name = Some a →
  ∃ m t, a = AMemo m ∧ memos W !! m = Some (memo_for self x f t) ∧
         instance_memo name W x = Some (memo_for self x f t).
Proof.
  intros [_ Hwf] Hx Hs Hd.
  destruct (Hwf _ _ _ _ Hx Hs Hd) as (m & t & -> & Hm).
  exists m, t. split; [done|]. split; [done|].
  apply instance_memo_Some. eauto 10.
Qed.

Lemma frame_instance_memo self name f x y W W1 :
  wf_world self name f W → frame_except x W W1 → y ≠ x →
  instance_memo name W1 y = instance_memo name W y.
Proof.
  intros Hwf [Hh Hm] Hy. unfold instance_memo. rewrite Hh by done.
  destruct (heap W !! y) as [inst|] eqn:Hx; simpl; [|done].
  destruct (store_items (dict inst)) as [d|] eqn:Hs; simpl; [|done].
  destruct (d !! name) as [a|] eqn:Hd; simpl; [|done].
  destruct (wf_instance_memo _ _ _ _ _ _ _ _ Hwf Hx Hs Hd)
    as (m & t & -> & Hmm & _).
  rewrite Hmm. apply Hm; [done|]. by rewrite memo_for_owner.
Qed.

(** Replacing the table of a wrapper keeps the world well formed. *)
Lemma wf_after_call self name f W x t t' m called c u :
  wf_world self name f W →
  memos W !! m = Some (memo_for self x f t) →
  wf_world self name f (after_call W m (memo_for self x f t') called c u).
Proof.
  intros Hwf Hm. pose proof (wf_fresh _ _ _ _ _ _ Hwf Hm) as Hlt.
  destruct Hwf as [Hfresh Hwf]. split; simpl.
  - intros m' Hge. rewrite lookup_insert_ne by lia. by apply Hfresh.
  - intros y inst d a Hy Hs Hd.
    destruct (Hwf _ _ _ _ Hy Hs Hd) as (m' & t0 & -> & Hm').
    destruct (decide (m' = m)) as [->|Hne].
    + rewrite Hm in Hm'. injection Hm' as Hxy _. subst y.
      exists m, t'. by rewrite lookup_insert_eq.
    + exists m', t0. by rewrite lookup_insert_ne.
Qed.

Lemma frame_after_call W x m μ μ' called c u :
  memos W !! m = Some μ → wm_obj (ref (user_function μ)) = x →
  frame_except x W (after_call W m μ' called c u).
Proof.
  intros Hm Hown. split; simpl; [done|].
  intros m' μ0 Hm' Hne. rewrite lookup_insert_ne; [done|].
  intros ->. rewrite Hm in Hm'. injection Hm' as ->. done.
Qed.

Lemma wf_with_new_memo self name f W x inst d :
  wf_world self name f W →
  heap W !! x = Some inst → dict inst = Dict d →
  wf_world self name f
    (with_new_memo W x
       (mkInstance (type_name inst) (Dict (<[name := AMemo (next_memo W)]> d))
          (has_weakref inst))
       (memo_for self x f [])).
Proof.
  intros [Hfresh Hwf] Hx Hdict. split; simpl.
  - intros m Hge. rewrite lookup_insert_ne by lia. apply Hfresh. lia.
  - intros y inst' d' a Hy Hs Hd.
    destruct (decide (y = x)) as [->|Hne].
    + rewrite lookup_insert_eq in Hy. injection Hy as <-. simpl in Hs.
      injection Hs as <-. rewrite lookup_insert_eq in Hd. injection Hd as <-.
      exists (next_memo W), []. by rewrite lookup_insert_eq.
    + rewrite lookup_insert_ne in Hy by done.
      destruct (Hwf _ _ _ _ Hy Hs Hd) as (m & t & -> & Hm).
      exists m, t. split; [done|]. rewrite lookup_insert_ne; [done|].
      intros <-. rewrite Hfresh in Hm by lia. done.
Qed.

Lemma frame_with_new_memo self name f W x inst' μ :
  wf_world self name f W → frame_except x W (with_new_memo W x inst' μ).
Proof.
  intros [Hfresh _]. split; simpl.
  - intros y Hy. by rewrite lookup_insert_ne.
  - intros m μ0 Hm _. rewrite lookup_insert_ne; [done|].
    intros <-. rewrite Hfresh in Hm by lia. done.
Qed.

Lemma wf_with_lost_memo self name f W μ :
  wf_world self name f W → wf_world self name f (with_lost_memo W μ).
Proof.
  intros [Hfresh Hwf]. split; simpl.
  - intros m Hge. rewrite lookup_insert_ne by lia. apply Hfresh. lia.
  - intros y inst d a Hy Hs Hd.
    destruct (Hwf _ _ _ _ Hy Hs Hd) as (m & t & -> & Hm).
    exists m, t. split; [done|]. rewrite lookup_insert_ne; [done|].
    intros <-. rewrite Hfresh in Hm by lia. done.
Qed.

Lemma frame_with_lost_memo self name f W x μ :
  wf_world self name f W → frame_except x W (with_lost_memo W μ).
Proof.
  intros [Hfresh _]. split; simpl; [done|].
  intros m μ0 Hm _. rewrite lookup_insert_ne; [done|].
  intros <-. rewrite Hfresh in Hm by lia. done.
Qed.

Lemma dict_get_None name (d : gmap string Attr) :
  d !! name = None → dict_get name d = None.
Proof. unfold dict_get. by intros ->. Qed.

Lemma dict_get_memo name (d : gmap string Attr) m :
  d !! name = Some (AMemo m) → dict_get name d = Some (AMemo m).
Proof. unfold dict_get. by intros ->. Qed.

Lemma cm_get_no_name self x W :
  methname self = None →
  cm_get self (Some x) W = (Raise (TypeError msg_no_set_name), W).
Proof. unfold cm_get. by intros ->. Qed.

Lemma cm_get_no_instance self name x W :
  methname self = Some name → heap W !! x = None →
  cm_get self (Some x) W = (Raise (SystemError "no such instance"), W).
Proof.
  intros Hn Hx. unfold cm_get, bind, get_instance. by rewrite Hn, Hx.
Qed.

Lemma cm_get_no_func self name x W inst d :
  methname self = Some name → func self = None →
  heap W !! x = Some inst → store_items (dict inst) = Some d →
  dict_get name d = None →
  cm_get self (Some x) W =
    (Raise (AttributeError "'NoneType' object has no attribute '__get__'"),
     W).
Proof.
  intros Hn Hf Hx Hs Hg.
  unfold cm_get, bind, get_instance, try_except, load_dict.
  rewrite Hn, Hx, Hs, Hf. simpl. by rewrite Hg.
Qed.

Lemma cm_get_no_dict self name x W inst :
  methname self = Some name → heap W !! x = Some inst → dict inst = NoDict →
  cm_get self (Some x) W =
    (Raise (TypeError (msg_no_dict (type_name inst) name)), W).
Proof.
  intros Hn Hx Hd. unfold cm_get, bind, get_instance, try_except, load_dict.
  by rewrite Hn, Hx, Hd.
Qed.

Lemma cm_get_read_only self name f x W inst d :
  attached self name f → heap W !! x = Some inst →
  dict inst = MappingProxy d → dict_get name d = None →
  cm_get self (Some x) W =
    (Raise (TypeError (msg_no_item_assignment (type_name inst) name)),
     with_lost_memo W (memo_for self x f [])).
Proof.
  intros [Hn Hf] Hx Hd Hg.
  unfold cm_get, bind, get_instance, try_except, load_dict.
  rewrite Hn, Hx, Hd, Hf; simpl. rewrite Hg.
  unfold lift, wbm_init, weakmethod_init, weakly_referenceable.
  rewrite Hd. unfold alloc_memo, dict_setitem; simpl. by rewrite Hx, Hd.
Qed.

Lemma cm_get_found self name x W inst d a :
  methname self = Some name → heap W !! x = Some inst →
  store_items (dict inst) = Some d → dict_get name d = Some a →
  cm_get self (Some x) W = (Ok (GotAttr a), W).
Proof.
  intros Hn Hx Hs Hg.
  unfold cm_get, bind, get_instance, try_except, load_dict.
  rewrite Hn, Hx, Hs. simpl. by rewrite Hg.
Qed.

Lemma cm_get_no_weakref self name f x W inst d :
  attached self name f → heap W !! x = Some inst →
  store_items (dict inst) = Some d → dict_get name d = None →
  weakly_referenceable inst = false →
  cm_get self (Some x) W =
    (Raise (TypeError (msg_no_weakref (type_name inst))), W).
Proof.
  intros [Hn Hf] Hx Hs Hg Hw.
  unfold cm_get, bind, get_instance, try_except, load_dict.
  rewrite Hn, Hx, Hs, Hf; simpl. rewrite Hg.
  unfold lift, wbm_init, weakmethod_init. by rewrite Hw.
Qed.

Lemma cm_get_create self name f x W inst d :
  attached self name f → heap W !! x = Some inst →
  dict inst = Dict d → dict_get name d = None →
  weakly_referenceable inst = true →
  cm_get self (Some x) W =
    (Ok (GotAttr (AMemo (next_memo W))),
     with_new_memo W x
       (mkInstance (type_name inst) (Dict (<[name := AMemo (next_memo W)]> d))
          (has_weakref inst))
       (memo_for self x f [])).
Proof.
  intros [Hn Hf] Hx Hd Hg Hw.
  unfold cm_get, bind, get_instance, try_except, load_dict.
  rewrite Hn, Hx, Hd, Hf; simpl. rewrite Hg.
  unfold lift, wbm_init, weakmethod_init. rewrite Hw.
  unfold alloc_memo, dict_setitem; simpl. by rewrite Hx, Hd.
Qed.

Lemma getattr_found self name x W inst d a :
  heap W !! x = Some inst → store_items (dict inst) = Some d →
  d !! name = Some a → getattr self name x W = (Ok a, W).
Proof.
  intros Hx Hs Hd. unfold getattr, bind, get_instance.
  rewrite Hx, Hs. simpl. by rewrite Hd.
Qed.

Lemma getattr_not_found self name x W inst :
  heap W !! x = Some inst → store_items (dict inst) ≫= (.!! name) = None →
  getattr self name x W =
    match cm_get self (Some x) W with
    | (Ok (GotAttr a), W1) => (Ok a, W1)
    | (Ok (GotSelf _), W1) =>
        (Raise (SystemError "descriptor returned for an instance"), W1)
    | (Raise e, W1) => (Raise e, W1)
    end.
Proof.
  intros Hx Hs. unfold getattr at 1, bind at 1, get_instance.
  rewrite Hx, Hs. unfold bind.
  destruct (cm_get self (Some x) W) as [[[b|a]|e] W1]; done.
Qed.

(** Resolving the attribute on a live instance with a dictionary gives
    the wrapper of that instance, creating it on first access, for which
    the instance has to be weakly referenceable. *)
Lemma getattr_ok self name f x W inst d :
  attached self name f → wf_world self name f W →
  heap W !! x = Some inst → dict inst = Dict d →
  weakly_referenceable inst = true ∨ is_Some (d !! name) →
  ∃ m W1 inst1 d1,
    getattr self name x W = (Ok (AMemo m), W1) ∧
    wf_world self name f W1 ∧ frame_except x W W1 ∧
    memos W1 !! m = Some (memo_for self x f (instance_table name W x)) ∧
    heap W1 !! x = Some inst1 ∧ dict inst1 = Dict d1 ∧
    d1 !! name = Some (AMemo m) ∧
    type_name inst1 = type_name inst ∧
    calls W1 = calls W ∧ user W1 = user W ∧
    (d !! name = None → W1 = with_new_memo W x
       (mkInstance (type_name inst) (Dict (<[name := AMemo (next_memo W)]> d))
          (has_weakref inst))
       (memo_for self x f [])) ∧
    (is_Some (d !! name) → W1 = W).
Proof.
  intros Hatt Hwf Hx Hd Hw.
  assert (Hs : store_items (dict inst) = Some d) by (by rewrite Hd).
  destruct (d !! name) as [a|] eqn:Hdn.
  - destruct (wf_instance_memo _ _ _ _ _ _ _ _ Hwf Hx Hs Hdn)
      as (m & t & -> & Hm & Him).
    exists m, W, inst, d. rewrite (getattr_found _ _ _ _ _ _ _ Hx Hs Hdn).
    unfold instance_table. rewrite Him. simpl.
    split_and!; done.
  - exists (next_memo W).
    exists (with_new_memo W x
       (mkInstance (type_name inst) (Dict (<[name := AMemo (next_memo W)]> d))
          (has_weakref inst))
       (memo_for self x f [])).
    exists (mkInstance (type_name inst)
              (Dict (<[name := AMemo (next_memo W)]> d)) (has_weakref inst)).
    exists (<[name := AMemo (next_memo W)]> d).
    destruct Hw as [Hw|[? ?]]; [|done].
    rewrite (getattr_not_found _ _ _ _ _ Hx) by (by rewrite Hs; simpl).
    rewrite (cm_get_create _ _ _ _ _ _ _ Hatt Hx Hd
               (dict_get_None _ _ Hdn) Hw).
    assert (Htab : instance_table name W x = []).
    { unfold instance_table, instance_memo. rewrite Hx. simpl. rewrite Hs.
      simpl. by rewrite Hdn. }
    rewrite Htab.
    split_and!; try done.
    + by apply wf_with_new_memo.
    + by eapply frame_with_new_memo.
    + simpl. by rewrite lookup_insert_eq.
    + simpl. by rewrite lookup_insert_eq.
    + by rewrite lookup_insert_eq.
Qed.

(** ** One invocation *)

(** An invocation on a live instance with a dictionary: the instance's
    table makes one [lru_step], and nothing outside the instance changes. *)
Lemma invoke_spec self name f x W inst d args kwds ro u out t' called :
  attached self name f → wf_world self name f W →
  heap W !! x = Some inst → dict inst = Dict d →
  weakly_referenceable inst = true ∨ is_Some (d !! name) →
  run f x args kwds (user W) = (ro, u) →
  lru_step (Z.max 0 <$> maxsize self) (make_key args kwds (typed self))
           (instance_table name W x) ro = (out, t', called) →
  ∃ W' inst' d',
    invoke run self name x args kwds W = (out, W') ∧
    wf_world self name f W' ∧ frame_except x W W' ∧
    instance_memo name W' x = Some (memo_for self x f t') ∧
    heap W' !! x = Some inst' ∧ dict inst' = Dict d' ∧
    is_Some (d' !! name) ∧
    calls W' = calls W ++ (if called then [mkCall f x args kwds] else []) ∧
    user W' = (if called then u else user W) ∧
    (is_Some (d !! name) → heap W' = heap W).
Proof.
  intros Hatt Hwf Hx Hd Hw Hrun Hstep.
  destruct (getattr_ok _ _ _ _ _ _ _ Hatt Hwf Hx Hd Hw)
    as (m & W1 & inst1 & d1 & Hget & Hwf1 & Hfr1 & Hm1 & Hx1 & Hd1 & Hdn1
        & _ & Hc1 & Hu1 & _ & Hsame).
  rewrite <- Hu1 in Hrun.
  pose proof (lru_call_live _ _ _ _ _ _ _ _ _ _ _ _ _ _
                Hm1 Hx1 Hrun Hstep) as Hcall.
  eexists _, inst1, d1. unfold invoke, bind. rewrite Hget. simpl.
  rewrite Hcall. split_and!; try done.
  - by eapply wf_after_call.
  - eapply frame_except_trans; [done|].
    by eapply frame_after_call.
  - apply instance_memo_Some. exists inst1, d1, m. simpl.
    rewrite Hd1, lookup_insert_eq. done.
  - simpl. by rewrite Hc1.
  - simpl. by rewrite Hu1.
  - intros Hsome. simpl. by rewrite (Hsame Hsome).
Qed.

Lemma instance_table_memo name W x μ :
  instance_memo name W x = Some μ → instance_table name W x = cache μ.
Proof. unfold instance_table. by intros ->. Qed.

(** The first invocation on an instance that has a dictionary and cannot
    be weakly referenced raises, and the world stays as it is. *)
Lemma invoke_no_weakref self name f x W inst d args kwds :
  attached self name f → heap W !! x = Some inst → dict inst = Dict d →
  d !! name = None → weakly_referenceable inst = false →
  invoke run self name x args kwds W =
    (Raise (TypeError (msg_no_weakref (type_name inst))), W).
Proof.
  intros Hatt Hx Hd Hdn Hw. unfold invoke, bind.
  rewrite (getattr_not_found _ _ _ _ _ Hx) by (by rewrite Hd; simpl).
  by rewrite (cm_get_no_weakref _ _ _ _ _ _ d Hatt Hx)
    by (rewrite ?Hd; auto using dict_get_None).
Qed.

(** Any invocation, on any instance, leaves the world well formed and
    everything outside that instance as it was, and calls the underlying
    function at most once, on that instance. *)
Lemma invoke_frame self name f x W args kwds :
  attached self name f → wf_world self name f W →
  ∃ out W',
    invoke run self name x args kwds W = (out, W') ∧
    wf_world self name f W' ∧ frame_except x W W' ∧
    (calls W' = calls W ∨ calls W' = calls W ++ [mkCall f x args kwds]) ∧
    out = invoke_outcome self name (heap W !! x) (instance_table name W x)
            (make_key args kwds (typed self))
            (run f x args kwds (user W)).1.
Proof.
  intros Hatt Hwf. unfold invoke_outcome.
  destruct (heap W !! x) as [inst|] eqn:Hx.
  2: { exists (Raise (SystemError "no such instance")), W.
       unfold invoke, getattr, bind, get_instance. rewrite Hx.
       split_and!; auto using frame_except_refl. }
  destruct (run f x args kwds (user W)) as [ro u] eqn:Hrun.
  destruct (dict inst) as [|d|d] eqn:Hd.
  - eexists _, W. unfold invoke, bind.
    rewrite (getattr_not_found _ _ _ _ _ Hx) by (by rewrite Hd).
    rewrite (cm_get_no_dict _ name _ _ _ (proj1 Hatt) Hx Hd).
    split_and!; auto using frame_except_refl.
  - assert (Hs : store_items (dict inst) = Some d) by (by rewrite Hd).
    destruct (d !! name) as [a|] eqn:Hdn.
    + destruct (wf_instance_memo _ _ _ _ _ _ _ _ Hwf Hx Hs Hdn)
        as (m & t & -> & Hm & Him).
      destruct (lru_step (Z.max 0 <$> maxsize self)
                  (make_key args kwds (typed self)) t ro)
        as [[out t'] called] eqn:Hstep.
      pose proof (lru_call_live _ _ _ _ _ _ _ _ _ _ _ _ _ _
                    Hm Hx Hrun Hstep) as Hcall.
      eexists _, _. unfold invoke, bind.
      rewrite (getattr_found _ _ _ _ _ _ _ Hx Hs Hdn). simpl.
      rewrite Hcall. split_and!; [done| | | |].
      * by eapply wf_after_call.
      * by eapply frame_after_call.
      * simpl. destruct called; [by right|left; by rewrite app_nil_r].
      * by rewrite (instance_table_memo _ _ _ _ Him), memo_for_cache, Hstep.
    + eexists _, _. unfold invoke, bind.
      rewrite (getattr_not_found _ _ _ _ _ Hx)
        by (by rewrite Hs; simpl).
      rewrite (cm_get_read_only _ _ _ _ _ _ _ Hatt Hx Hd
                 (dict_get_None _ _ Hdn)).
      split_and!; [done| | |by left|done].
      * by apply wf_with_lost_memo.
      * by eapply frame_with_lost_memo.
  - assert (Hcase : (d !! name = None ∧ weakly_referenceable inst = false)
                    ∨ weakly_referenceable inst = true ∨ is_Some (d !! name)).
    { destruct (d !! name); [by eauto|].
      destruct (weakly_referenceable inst); auto. }
    destruct Hcase as [[Hdn Hw]|Hw].
    { exists (Raise (TypeError (msg_no_weakref (type_name inst)))), W.
      rewrite (invoke_no_weakref _ _ _ _ _ _ _ _ _ Hatt Hx Hd Hdn Hw).
      rewrite Hdn, Hw. split_and!; auto using frame_except_refl. }
    destruct (lru_step (Z.max 0 <$> maxsize self)
                (make_key args kwds (typed self))
                (instance_table name W x) ro)
      as [[out t'] called] eqn:Hstep.
    destruct (invoke_spec _ _ _ _ _ _ _ _ _ _ _ _ _ _
                Hatt Hwf Hx Hd Hw Hrun Hstep)
      as (W' & inst' & d' & Hinv & Hwf' & Hfr & _ & _ & _ & _ & Hc & _).
    exists out, W'. split_and!; try done.
    + destruct called; [by right|left; by rewrite Hc, app_nil_r].
    + simpl. rewrite Hstep.
      destruct Hw as [->|[? ->]]; [by destruct (d !! name)|done].
Qed.

Lemma invoke_seq_cons self name x c cs W :
  invoke_seq run self name x (c :: cs) W =
  invoke_seq run self name x cs (invoke run self name x c.1 c.2 W).2.
Proof. done. Qed.

(** A run of invocations on one instance. *)
Lemma invoke_seq_frame self name f x cs W :
  attached self name f → wf_world self name f W →
  wf_world self name f (invoke_seq run self name x cs W) ∧
  frame_except x W (invoke_seq run self name x cs W) ∧
  ∃ l, calls (invoke_seq run self name x cs W) = calls W ++ l ∧
       Forall (λ c, call_self c = x) l.
Proof.
  intros Hatt. revert W. induction cs as [|c cs IH]; intros W Hwf.
  - split_and!; [done|apply frame_except_refl|].
    exists []. by rewrite app_nil_r.
  - rewrite invoke_seq_cons.
    destruct (invoke_frame self name f x W c.1 c.2 Hatt Hwf)
      as (out & W1 & Hinv & Hwf1 & Hfr1 & Hc1 & _).
    rewrite Hinv. simpl.
    destruct (IH W1 Hwf1) as (Hwf2 & Hfr2 & l & Hl & Hall).
    split_and!; [done|by eapply frame_except_trans|].
    destruct Hc1 as [Hc1|Hc1]; rewrite Hl, Hc1.
    + by exists l.
    + exists (mkCall f x c.1 c.2 :: l). rewrite <- app_assoc.
      split; [done|]. by constructor.
Qed.

Lemma cached_result_table name W x k :
  cached_result name W x k = cache_get k (instance_table name W x).
Proof.
  unfold cached_result, instance_table.
  by destruct (instance_memo name W x).
Qed.

Lemma capacity_ok_keeps self :
  capacity_ok self → keeps (Z.max 0 <$> maxsize self).
Proof.
  intros [->|(k & -> & Hk)]; simpl; [done|lia].
Qed.

(** ** Memoization *)

(** C1 (memoizing), as amended: on a live instance with a mutable
    dictionary that can be weakly referenced, for a descriptor whose
    capacity is unset or at least one, two invocations in a row with the
    same arguments return the same result, the second without calling the
    underlying function; when the key was not cached before and the
    underlying function returns [r] on these arguments, that result is [r]
    and the function was called exactly once.  The claim fails without
    either condition. *)
Theorem invoke_twice_calls_once self name f x W inst d args kwds r :
  attached self name f → capacity_ok self → wf_world self name f W →
  heap W !! x = Some inst → dict inst = Dict d →
  weakly_referenceable inst = true →
  (cached_result name W x (make_key args kwds (typed self)) = None →
   (run f x args kwds (user W)).1 = Ok r) →
  ∃ r1 W1 W2,
    invoke run self name x args kwds W = (Ok r1, W1) ∧
    invoke run self name x args kwds W1 = (Ok r1, W2) ∧
    calls W2 = calls W1 ∧
    match cached_result name W x (make_key args kwds (typed self)) with
    | None => r1 = r ∧ calls W1 = calls W ++ [mkCall f x args kwds]
    | Some r0 => r1 = r0 ∧ calls W1 = calls W
    end.
Proof.
  intros Hatt Hcap Hwf Hx Hd Hw Hret.
  apply capacity_ok_keeps in Hcap.
  set (key := make_key args kwds (typed self)) in *.
  rewrite cached_result_table in Hret |- *.
  destruct (run f x args kwds (user W)) as [ro u] eqn:Hrun.
  assert (Hfirst : ∃ r1 t1 called,
    lru_step (Z.max 0 <$> maxsize self) key (instance_table name W x) ro
      = (Ok r1, t1, called) ∧
    match cache_get key (instance_table name W x) with
    | None => r1 = r ∧ called = true
    | Some r0 => r1 = r0 ∧ called = false
    end).
  { destruct (cache_get key (instance_table name W x)) as [r0|] eqn:Hg.
    - destruct (lru_step_hit _ _ _ ro _ Hcap Hg) as [t1 Ht1]. eauto 10.
    - simpl in Hret. rewrite (Hret eq_refl).
      destruct (lru_step_miss (Z.max 0 <$> maxsize self) _ _ (Ok r) Hg)
        as (t1 & Ht1 & _). eauto 10. }
  destruct Hfirst as (r1 & t1 & called & Hstep & Hres).
  destruct (invoke_spec _ _ _ _ _ _ _ _ _ _ _ _ _ _
              Hatt Hwf Hx Hd (or_introl Hw) Hrun Hstep)
    as (W1 & inst1 & d1 & Hinv1 & Hwf1 & _ & Him1 & Hx1 & Hd1 & Hn1 & Hc1 & _).
  pose proof (lru_step_cached _ _ _ _ _ _ _ Hcap Hstep) as Hcached.
  destruct (run f x args kwds (user W1)) as [ro2 u2] eqn:Hrun2.
  destruct (lru_step_hit _ _ _ ro2 _ Hcap Hcached) as [t2 Hstep2].
  rewrite <- (memo_for_cache self x f t1) in Hstep2.
  rewrite <- (instance_table_memo _ _ _ _ Him1) in Hstep2.
  destruct (invoke_spec _ _ _ _ _ _ _ _ _ _ _ _ _ _
              Hatt Hwf1 Hx1 Hd1 (or_intror Hn1) Hrun2 Hstep2)
    as (W2 & _ & _ & Hinv2 & _ & _ & _ & _ & _ & _ & Hc2 & _).
  exists r1, W1, W2. split_and!; [done|done|by rewrite Hc2, app_nil_r|].
  destruct (cache_get key (instance_table name W x));
    destruct Hres as [-> ->]; [by rewrite Hc1, app_nil_r|by rewrite Hc1].
Qed.

Lemma wf_set_user self name f W u :
  wf_world self name f W → wf_world self name f (set_user u W).
Proof. by intros [? ?]. Qed.

Lemma filter_calls_other x y (l : list Call) :
  x ≠ y → Forall (λ c, call_self c = x) l →
  filter (λ c, call_self c = y) l = [].
Proof.
  intros Hne Hall. induction Hall as [|c l Hc _ IH]; [done|].
  rewrite filter_cons_False by (simpl; congruence). done.
Qed.

(** ** Isolation between instances *)

(** C3 (instances do not interfere): however many invocations are made on
    instance [x], a distinct instance [y] keeps its dictionary and its
    wrapper with the same table, no call of the underlying function is
    made on [y], and whatever an invocation on [y] returns or raises
    afterwards is what it would have returned or raised without them,
    the user state being equal. *)
Theorem invoke_frames_other_instance self name f x y W cs :
  attached self name f → wf_world self name f W → x ≠ y →
  heap (invoke_seq run self name x cs W) !! y = heap W !! y ∧
  instance_memo name (invoke_seq run self name x cs W) y
    = instance_memo name W y ∧
  filter (λ c, call_self c = y) (calls (invoke_seq run self name x cs W))
    = filter (λ c, call_self c = y) (calls W) ∧
  ∀ args kwds u,
    (invoke run self name y args kwds
       (set_user u (invoke_seq run self name x cs W))).1 =
    (invoke run self name y args kwds (set_user u W)).1.
Proof.
  intros Hatt Hwf Hne.
  destruct (invoke_seq_frame self name f x cs W Hatt Hwf)
    as (Hwf' & Hfr & l & Hl & Hall).
  assert (Hmemo : instance_memo name (invoke_seq run self name x cs W) y
                  = instance_memo name W y).
  { eapply frame_instance_memo; eauto. }
  assert (Hheap : heap (invoke_seq run self name x cs W) !! y = heap W !! y).
  { apply Hfr. auto. }
  split_and!; [done|done| |].
  - rewrite Hl, filter_app, (filter_calls_other x y l) by done.
    by rewrite app_nil_r.
  - intros args kwds u.
    destruct (invoke_frame self name f y _ args kwds Hatt
                (wf_set_user _ _ _ _ u Hwf'))
      as (o1 & W1 & -> & _ & _ & _ & ->).
    destruct (invoke_frame self name f y _ args kwds Hatt
                (wf_set_user _ _ _ _ u Hwf))
      as (o2 & W2 & -> & _ & _ & _ & ->).
    simpl. unfold instance_table.
    change (instance_memo name (set_user u ?V) y)
      with (instance_memo name V y).
    by rewrite Hheap, Hmemo.
Qed.

(** ** The owner is gone *)

Lemma wf_reclaim self name f x W :
  wf_world self name f W → wf_world self name f (reclaim x W).
Proof.
  intros [Hfresh Hwf]. split; simpl; [done|].
  intros y inst d a Hy. apply lookup_delete_Some in Hy as [_ Hy].
  by apply Hwf.
Qed.

(** C8 (owner collection): a wrapper that an instance held, called after
    the instance has been reclaimed with arguments whose key it has not
    cached, raises the RuntimeError of [WeaklyBoundMethod.__call__]; the
    underlying function is not called and nothing changes. *)
Theorem call_after_reclaim_raises self name f x W inst d m μ args kwds :
  wf_world self name f W →
  heap W !! x = Some inst → store_items (dict inst) = Some d →
  d !! name = Some (AMemo m) → memos W !! m = Some μ →
  cache_get (make_key args kwds (lru_typed μ)) (cache μ) = None →
  lru_wrapper_call run m args kwds (reclaim x W) =
    (Raise (RuntimeError msg_collected), reclaim x W).
Proof.
  intros Hwf Hx Hs Hd Hm Hg.
  destruct (wf_instance_memo _ _ _ _ _ _ _ _ Hwf Hx Hs Hd)
    as (m' & t & [= <-] & Hm' & _).
  rewrite Hm in Hm'. injection Hm' as ->.
  eapply lru_call_dead; [exact Hm| |exact Hg].
  unfold reclaim. simpl. apply lookup_delete_eq.
Qed.

(** ** Errors of the underlying function *)

(** C9 (errors are not cached): on a live instance with a mutable
    dictionary that can be weakly referenced (so that its wrapper exists
    or can be created), when an invocation reaches the underlying function
    and that function raises, the invocation raises the same exception,
    the table is left as it was, without an entry for the key, and the
    next invocation with the same arguments calls the function again. *)
Theorem raised_error_not_cached self name f x W inst d args kwds e u :
  attached self name f → wf_world self name f W →
  heap W !! x = Some inst → dict inst = Dict d →
  weakly_referenceable inst = true →
  cached_result name W x (make_key args kwds (typed self)) = None →
  run f x args kwds (user W) = (Raise e, u) →
  ∃ W1,
    invoke run self name x args kwds W = (Raise e, W1) ∧
    calls W1 = calls W ++ [mkCall f x args kwds] ∧
    instance_table name W1 x = instance_table name W x ∧
    cached_result name W1 x (make_key args kwds (typed self)) = None ∧
    ∃ W2,
      invoke run self name x args kwds W1
        = ((run f x args kwds (user W1)).1, W2) ∧
      calls W2 = calls W1 ++ [mkCall f x args kwds].
Proof.
  intros Hatt Hwf Hx Hd Hw Hmiss Hrun.
  rewrite cached_result_table in Hmiss.
  destruct (lru_step_miss (Z.max 0 <$> maxsize self) _ _ (Raise e) Hmiss)
    as (t1 & Hstep & Ht1).
  rewrite (Ht1 e eq_refl) in Hstep.
  destruct (invoke_spec _ _ _ _ _ _ _ _ _ _ _ _ _ _
              Hatt Hwf Hx Hd (or_introl Hw) Hrun Hstep)
    as (W1 & inst1 & d1 & Hinv1 & Hwf1 & _ & Him1 & Hx1 & Hd1 & Hn1 & Hc1 & _).
  pose proof (instance_table_memo _ _ _ _ Him1) as Htab.
  rewrite memo_for_cache in Htab.
  exists W1. split_and!; [done|done|done| |].
  - by rewrite cached_result_table, Htab.
  - destruct (run f x args kwds (user W1)) as [ro2 u2] eqn:Hrun2.
    rewrite <- Htab in Hmiss.
    destruct (lru_step_miss (Z.max 0 <$> maxsize self) _ _ ro2 Hmiss)
      as (t2 & Hstep2 & _).
    destruct (invoke_spec _ _ _ _ _ _ _ _ _ _ _ _ _ _
                Hatt Hwf1 Hx1 Hd1 (or_intror Hn1) Hrun2 Hstep2)
      as (W2 & _ & _ & Hinv2 & _ & _ & _ & _ & _ & _ & Hc2 & _).
    by exists W2.
Qed.

(** ** Failures of the resolution *)

(** C10 (failed resolution): with no name attached, with no dictionary on
    the instance, and with a dictionary that rejects the write, [__get__]
    raises; and whenever [__get__] raises, the heap (so every instance
    dictionary) is as before, no call of the underlying function has been
    made, the user state is as before, and resolving again raises the
    same exception. *)
Theorem failed_get_changes_nothing self x W :
  (methname self = None →
     cm_get self (Some x) W = (Raise (TypeError msg_no_set_name), W)) ∧
  (∀ name inst,
     methname self = Some name → heap W !! x = Some inst →
     dict inst = NoDict →
     cm_get self (Some x) W =
       (Raise (TypeError (msg_no_dict (type_name inst) name)), W)) ∧
  (∀ name f inst d,
     attached self name f → heap W !! x = Some inst →
     dict inst = MappingProxy d → dict_get name d = None →
     (cm_get self (Some x) W).1 =
       Raise (TypeError (msg_no_item_assignment (type_name inst) name))) ∧
  (∀ e W1,
     cm_get self (Some x) W = (Raise e, W1) →
     heap W1 = heap W ∧ calls W1 = calls W ∧ user W1 = user W ∧
     ∃ W2, cm_get self (Some x) W1 = (Raise e, W2) ∧ heap W2 = heap W).
Proof.
  split_and!.
  - apply cm_get_no_name.
  - intros name inst. apply cm_get_no_dict.
  - intros name f inst d Hatt Hx Hd Hg.
    by rewrite (cm_get_read_only _ _ _ _ _ _ _ Hatt Hx Hd Hg).
  - intros e W1.
    destruct (methname self) as [name|] eqn:Hn.
    2: { rewrite (cm_get_no_name _ _ _ Hn). intros [= <- <-].
         split_and!; try done. exists W. by rewrite (cm_get_no_name _ _ _ Hn). }
    destruct (heap W !! x) as [inst|] eqn:Hx.
    2: { rewrite (cm_get_no_instance _ _ _ _ Hn Hx). intros [= <- <-].
         split_and!; try done. exists W.
         by rewrite (cm_get_no_instance _ _ _ _ Hn Hx). }
    destruct (dict inst) as [|d|d] eqn:Hd.
    + rewrite (cm_get_no_dict _ _ _ _ _ Hn Hx Hd). intros [= <- <-].
      split_and!; try done. exists W.
      by rewrite (cm_get_no_dict _ _ _ _ _ Hn Hx Hd).
    + destruct (dict_get name d) as [a|] eqn:Hg.
      { by rewrite (cm_get_found _ _ _ _ _ d _ Hn Hx) by (by rewrite ?Hd). }
      destruct (func self) as [f|] eqn:Hf.
      * rewrite (cm_get_read_only _ _ f _ _ _ _ (conj Hn Hf) Hx Hd Hg).
        intros [= <- <-]. split_and!; try done.
        exists (with_lost_memo (with_lost_memo W (memo_for self x f []))
                               (memo_for self x f [])).
        split; [|reflexivity].
        by rewrite (cm_get_read_only self name f x
                      (with_lost_memo W (memo_for self x f [])) inst d
                      (conj Hn Hf) Hx Hd Hg).
      * rewrite (cm_get_no_func _ _ _ _ _ d Hn Hf Hx) by (by rewrite ?Hd).
        intros [= <- <-]. split_and!; try done. exists W.
        by rewrite (cm_get_no_func _ _ _ _ _ d Hn Hf Hx) by (by rewrite ?Hd).
    + destruct (dict_get name d) as [a|] eqn:Hg.
      { by rewrite (cm_get_found _ _ _ _ _ d _ Hn Hx) by (by rewrite ?Hd). }
      destruct (func self) as [f|] eqn:Hf.
      * destruct (weakly_referenceable inst) eqn:Hw.
        { by rewrite (cm_get_create _ _ f _ _ _ _ (conj Hn Hf) Hx Hd Hg Hw). }
        rewrite (cm_get_no_weakref _ _ f _ _ _ d (conj Hn Hf) Hx)
          by (by rewrite ?Hd).
        intros [= <- <-]. split_and!; try done. exists W.
        by rewrite (cm_get_no_weakref _ _ f _ _ _ d (conj Hn Hf) Hx)
          by (by rewrite ?Hd).
      * rewrite (cm_get_no_func _ _ _ _ _ d Hn Hf Hx) by (by rewrite ?Hd).
        intros [= <- <-]. split_and!; try done. exists W.
        by rewrite (cm_get_no_func _ _ _ _ _ d Hn Hf Hx) by (by rewrite ?Hd).
Qed.





(** ** Recency order *)

Lemma cache_del_keys k t : (cache_del k t).*1 = filter (λ k', k' ≠ k) (t.*1).
Proof.
  unfold cache_del. induction t as [|[k0 v] t IH]; [done|].
  simpl. destruct (decide (k0 = k)) as [->|Hne].
  - rewrite !filter_cons_False by (simpl; auto). done.
  - rewrite !filter_cons_True by (simpl; auto). csimpl. by rewrite IH.
Qed.

Lemma tail_keys t : (tail t).*1 = tail (t.*1).
Proof. by destruct t. Qed.

Lemma lru_step_keys (c : Z) k t r out t' called :
  (1 ≤ c)%Z → lru_step (Some c) k t (Ok r) = (out, t', called) →
  t'.*1 = keys_step (Z.to_nat c) (t.*1) k.
Proof.
  intros Hc. unfold lru_step, keys_step. rewrite decide_False by lia.
  destruct (cache_get k t) as [r0|] eqn:Hg.
  - intros [= <- <- <-].
    rewrite decide_True.
    2: { apply cache_get_Some_elem in Hg.
         apply list_elem_of_fmap. by exists (k, r0). }
    unfold cache_touch. by rewrite fmap_app, cache_del_keys.
  - intros [= <- <- <-].
    rewrite decide_False by (by apply cache_get_None).
    unfold cache_put. rewrite length_fmap.
    destruct (decide _); by rewrite fmap_app, ?tail_keys.
Qed.

(** Distinct new keys fill a table that has room, in order. *)
Lemma keys_fill n (ks l : list Key) :
  NoDup (l ++ ks) → length l + length ks ≤ n →
  foldl (keys_step n) l ks = l ++ ks.
Proof.
  revert l. induction ks as [|k ks IH]; intros l Hnd Hlen; simpl.
  - by rewrite app_nil_r.
  - simpl in Hlen. unfold keys_step at 2.
    apply NoDup_app in Hnd as Hnd'. destruct Hnd' as (_ & Hdisj & _).
    rewrite decide_False.
    2: { intros Hin. apply (Hdisj _ Hin). apply list_elem_of_here. }
    rewrite decide_True by lia.
    rewrite IH; rewrite <- ?app_assoc; simpl; try done.
    rewrite length_app. simpl. lia.
Qed.

(** A hit on a table without duplicates permutes it. *)
Lemma keys_step_hit_perm n (l : list Key) k :
  NoDup l → k ∈ l → keys_step n l k ≡ₚ l.
Proof.
  intros Hnd Hin. unfold keys_step. rewrite decide_True by done.
  apply NoDup_Permutation; [|done|].
  - apply NoDup_app. split; [by apply NoDup_filter|].
    split; [|apply NoDup_singleton].
    intros k' Hk' Hk''. apply list_elem_of_filter in Hk' as [Hne _].
    apply list_elem_of_singleton in Hk''. done.
  - intros k'. rewrite elem_of_app, list_elem_of_filter, list_elem_of_singleton.
    split; [intros [[_ ?]| ->]; done|].
    intros H. destruct (decide (k' = k)); [by right|by left].
Qed.

Lemma filter_not_in_nil (l : list Key) : filter (λ k, k ∉ []) l = l.
Proof.
  induction l as [|k l IH]; [done|].
  rewrite filter_cons_True by apply not_elem_of_nil. by rewrite IH.
Qed.

(** Re-accessing some keys of a table moves them behind the others, which
    keep their order. *)
Lemma keys_touch n (rs l : list Key) :
  NoDup l → (∀ k, k ∈ rs → k ∈ l) →
  ∃ rs', foldl (keys_step n) l rs = filter (λ k, k ∉ rs) l ++ rs' ∧
         (∀ k, k ∈ rs' → k ∈ rs) ∧
         foldl (keys_step n) l rs ≡ₚ l.
Proof.
  revert l. induction rs as [|r rs IH]; intros l Hnd Hin; simpl.
  - exists []. rewrite app_nil_r, filter_not_in_nil. done.
  - assert (Hr : r ∈ l) by (apply Hin, list_elem_of_here).
    pose proof (keys_step_hit_perm n l r Hnd Hr) as Hperm.
    destruct (IH (keys_step n l r)) as (rs' & Heq & Hsub & Hperm').
    { by rewrite Hperm. }
    { intros k Hk. rewrite Hperm. apply Hin. by apply list_elem_of_further. }
    rewrite Heq. unfold keys_step at 1. rewrite decide_True by done.
    rewrite filter_app, <- app_assoc.
    exists (filter (λ k, k ∉ rs) [r] ++ rs'). split_and!.
    + f_equal. rewrite list_filter_filter. apply list_filter_iff.
      intros k. rewrite not_elem_of_cons. split; intros [? ?]; done.
    + intros k. rewrite elem_of_app, list_elem_of_filter,
        list_elem_of_singleton, elem_of_cons.
      intros [[_ ->]|H]; [by left|right; by apply Hsub].
    + rewrite <- Heq, Hperm'. exact Hperm.
Qed.

Lemma filter_all_in (pre rs : list Key) :
  (∀ k, k ∈ pre → k ∈ rs) → filter (λ k, k ∉ rs) pre = [].
Proof.
  induction pre as [|k pre IH]; intros Hin; [done|].
  rewrite filter_cons_False.
  - apply IH. intros k' Hk'. apply Hin. by apply list_elem_of_further.
  - intros Hk. apply Hk, Hin, list_elem_of_here.
Qed.

(** Fill a table of capacity [n] with the [n] distinct keys [ks], re-access
    the keys [rs], then insert a new key: the key lost is the earliest
    inserted one among those not re-accessed, and only that one. *)
Lemma keys_evict n (ks rs : list Key) (knew v : Key) (pre post : list Key) :
  NoDup ks → length ks = n → (∀ k, k ∈ rs → k ∈ ks) → knew ∉ ks →
  ks = pre ++ v :: post → (∀ k, k ∈ pre → k ∈ rs) → v ∉ rs →
  (v ∉ foldl (keys_step n) [] (ks ++ rs ++ [knew])) ∧
  (∀ k, k ∈ ks → k ≠ v → k ∈ foldl (keys_step n) [] (ks ++ rs ++ [knew])) ∧
  (knew ∈ foldl (keys_step n) [] (ks ++ rs ++ [knew])).
Proof.
  intros Hnd Hlen Hrs Hnew Hks Hpre Hv.
  rewrite !foldl_app. simpl.
  assert (Hfill : foldl (keys_step n) [] ks = ks).
  { apply (keys_fill n ks []); simpl; [done|lia]. }
  rewrite Hfill.
  destruct (keys_touch n rs ks Hnd Hrs) as (rs' & Heq & Hsub & Hperm).
  assert (Hhead : foldl (keys_step n) ks rs
                  = v :: (filter (λ k, k ∉ rs) post ++ rs')).
  { rewrite Heq, Hks, filter_app, (filter_all_in pre rs Hpre).
    by rewrite filter_cons_True. }
  assert (Hnd1 : NoDup (foldl (keys_step n) ks rs)) by (by rewrite Hperm).
  assert (Hvks : v ∈ ks).
  { rewrite Hks. apply elem_of_app. right. apply list_elem_of_here. }
  assert (Hlast : keys_step n (foldl (keys_step n) ks rs) knew
                  = (filter (λ k, k ∉ rs) post ++ rs') ++ [knew]).
  { assert (Hlen1 : length (foldl (keys_step n) ks rs) = n)
      by (by rewrite Hperm).
    assert (Hnin : knew ∉ foldl (keys_step n) ks rs) by (by rewrite Hperm).
    unfold keys_step at 1. rewrite decide_False by done.
    rewrite decide_False by lia. by rewrite Hhead. }
  rewrite Hlast. rewrite Hhead in Hnd1.
  apply NoDup_cons in Hnd1 as [Hvtail _].
  split_and!.
  - rewrite elem_of_app, list_elem_of_singleton.
    intros [?| ->]; done.
  - intros k Hk Hne. rewrite <- Hperm, Hhead in Hk.
    apply elem_of_cons in Hk as [?|Hk]; [done|].
    apply elem_of_app. by left.
  - apply elem_of_app. right. apply list_elem_of_here.
Qed.

(** Without a capacity a call never removes an entry. *)
Lemma lru_step_unbounded_keeps k k' t ro out t' called v :
  lru_step None k' t ro = (out, t', called) →
  cache_get k t = Some v → cache_get k t' = Some v.
Proof.
  unfold lru_step. intros H Hg.
  destruct (cache_get k' t); [by injection H as <- <- <-|].
  destruct ro; injection H as <- <- <-; [|done].
  by rewrite cache_get_app, Hg.
Qed.

(** The keys of a bounded table along a run of successful invocations. *)
Lemma invoke_seq_keys self name f x (c : Z) cs :
  attached self name f → maxsize self = Some c → (1 ≤ c)%Z →
  (∀ cl, cl ∈ cs → always_returns run f x cl) →
  ∀ W inst d,
    wf_world self name f W → heap W !! x = Some inst → dict inst = Dict d →
    weakly_referenceable inst = true ∨ is_Some (d !! name) →
    ∃ inst' d',
      wf_world self name f (invoke_seq run self name x cs W) ∧
      heap (invoke_seq run self name x cs W) !! x = Some inst' ∧
      dict inst' = Dict d' ∧
      (weakly_referenceable inst' = true ∨ is_Some (d' !! name)) ∧
      (instance_table name (invoke_seq run self name x cs W) x).*1 =
        foldl (keys_step (Z.to_nat c)) ((instance_table name W x).*1)
              ((λ cl, make_key cl.1 cl.2 (typed self)) <$> cs).
Proof.
  intros Hatt Hms Hc.
  induction cs as [|cl cs IH]; intros Hret W inst d Hwf Hx Hd Hw.
  - by exists inst, d.
  - rewrite invoke_seq_cons. csimpl.
    destruct (Hret cl (list_elem_of_here _ _) (user W)) as (r & u & Hrun).
    destruct (lru_step (Z.max 0 <$> maxsize self)
                (make_key cl.1 cl.2 (typed self))
                (instance_table name W x) (Ok r))
      as [[out t'] called] eqn:Hstep.
    destruct (invoke_spec _ _ _ _ _ _ _ _ _ _ _ _ _ _
                Hatt Hwf Hx Hd Hw Hrun Hstep)
      as (W1 & inst1 & d1 & Hinv & Hwf1 & _ & Him1 & Hx1 & Hd1 & Hn1 & _).
    rewrite Hinv. simpl.
    destruct (IH (λ cl' H, Hret cl' (list_elem_of_further _ _ _ H))
                 W1 inst1 d1 Hwf1 Hx1 Hd1 (or_intror Hn1))
      as (inst' & d' & Hwf' & Hx' & Hd' & Hw' & Hkeys).
    exists inst', d'. split_and!; [done|done|done|done|].
    rewrite Hkeys. f_equal.
    rewrite (instance_table_memo _ _ _ _ Him1), memo_for_cache.
    rewrite Hms in Hstep.
    change (Z.max 0 <$> Some c) with (Some (Z.max 0 c)) in Hstep.
    rewrite Z.max_r in Hstep by lia.
    by eapply lru_step_keys.
Qed.

Lemma cached_result_installed name W x inst d k v :
  heap W !! x = Some inst → dict inst = Dict d →
  cached_result name W x k = Some v → is_Some (d !! name).
Proof.
  intros Hx Hd. unfold cached_result, instance_memo.
  rewrite Hx. simpl. rewrite Hd. simpl.
  by destruct (d !! name); [eauto|].
Qed.

(** An entry of an unbounded table survives any run of invocations. *)
Lemma invoke_seq_unbounded self name f x cs k v :
  attached self name f → maxsize self = None →
  ∀ W inst d,
    wf_world self name f W → heap W !! x = Some inst → dict inst = Dict d →
    cached_result name W x k = Some v →
    cached_result name (invoke_seq run self name x cs W) x k = Some v.
Proof.
  intros Hatt Hms. induction cs as [|cl cs IH]; intros W inst d Hwf Hx Hd Hg.
  - done.
  - rewrite invoke_seq_cons.
    destruct (run f x cl.1 cl.2 (user W)) as [ro u] eqn:Hrun.
    destruct (lru_step (Z.max 0 <$> maxsize self)
                (make_key cl.1 cl.2 (typed self))
                (instance_table name W x) ro)
      as [[out t'] called] eqn:Hstep.
    destruct (invoke_spec _ _ _ _ _ _ _ _ _ _ _ _ _ _
                Hatt Hwf Hx Hd
                (or_intror (cached_result_installed _ _ _ _ _ _ _ Hx Hd Hg))
                Hrun Hstep)
      as (W1 & inst1 & d1 & Hinv & Hwf1 & _ & Him1 & Hx1 & Hd1 & _).
    rewrite Hinv. simpl. eapply IH; [done|done|done|].
    rewrite cached_result_table in Hg |- *.
    rewrite (instance_table_memo _ _ _ _ Him1), memo_for_cache.
    rewrite Hms in Hstep. by eapply lru_step_unbounded_keeps.
Qed.

Lemma make_key_inj typed (c c' : list Val * list (string * Val)) :
  make_key c.1 c.2 typed = make_key c'.1 c'.2 typed → c = c'.
Proof.
  destruct c, c'. unfold make_key. simpl. by intros [= -> -> _].
Qed.

Lemma cache_get_is_Some k t : k ∈ t.*1 → is_Some (cache_get k t).
Proof.
  intros Hin. destruct (cache_get k t) eqn:Hg; [done|].
  by apply cache_get_None in Hg.
Qed.

(** ** Eviction *)

(** C2 (capacity eviction): on a live instance with a mutable dictionary
    that can be weakly referenced (so that it gets a per-instance cache),
    take a fresh per-instance cache of capacity
    [k >= 1] and make [k] calls [cs] with distinct keys, then re-access
    some of them ([rs]), then make a call [cnew] with a further key, the
    underlying function returning on each.  The call [cv] that is the
    earliest of [cs] among those not re-accessed is no longer cached, every
    other call of [cs] and [cnew] are, and invoking [cv] again calls the
    underlying function.  With the capacity unset, an entry once cached
    stays cached through any run of invocations. *)
Theorem lru_eviction_order self name f x W inst d :
  attached self name f → wf_world self name f W →
  heap W !! x = Some inst → dict inst = Dict d →
  weakly_referenceable inst = true →
  (∀ (k : Z) cs rs cnew pre cv post,
     let key := λ c : list Val * list (string * Val),
                  make_key c.1 c.2 (typed self) in
     let W' := invoke_seq run self name x (cs ++ rs ++ [cnew]) W in
     maxsize self = Some k → (1 ≤ k)%Z → d !! name = None →
     (∀ c, c ∈ cs ++ [cnew] → always_returns run f x c) →
     NoDup (key <$> cs) → length cs = Z.to_nat k →
     (∀ c, c ∈ rs → c ∈ cs) → key cnew ∉ key <$> cs →
     cs = pre ++ cv :: post → (∀ c, c ∈ pre → c ∈ rs) → cv ∉ rs →
     cached_result name W' x (key cv) = None ∧
     (∀ c, c ∈ cs → c ≠ cv → is_Some (cached_result name W' x (key c))) ∧
     is_Some (cached_result name W' x (key cnew)) ∧
     ∃ out W'',
       invoke run self name x cv.1 cv.2 W' = (out, W'') ∧
       calls W'' = calls W' ++ [mkCall f x cv.1 cv.2]) ∧
  (maxsize self = None →
   ∀ cs k v,
     cached_result name W x k = Some v →
     cached_result name (invoke_seq run self name x cs W) x k = Some v).
Proof.
  intros Hatt Hwf Hx Hd Hw. split.
  2: { intros Hms cs k v. by eapply invoke_seq_unbounded. }
  intros k cs rs cnew pre cv post key W' Hms Hk Hdn Hret Hnd Hlen Hrs Hnew
         Hcs Hpre Hcv.
  assert (Hcvin : cv ∈ cs).
  { rewrite Hcs. apply elem_of_app. right. apply list_elem_of_here. }
  assert (Hret' : ∀ c, c ∈ cs ++ rs ++ [cnew] → always_returns run f x c).
  { intros c. rewrite !elem_of_app. intros [?|[?|?]]; apply Hret;
      rewrite elem_of_app; auto. }
  destruct (invoke_seq_keys self name f x k (cs ++ rs ++ [cnew])
              Hatt Hms Hk Hret' W inst d Hwf Hx Hd (or_introl Hw))
    as (inst' & d' & Hwf' & Hx' & Hd' & Hw' & Hkeys).
  fold W' in Hwf', Hx', Hkeys. fold key in Hkeys.
  assert (Htab : instance_table name W x = []).
  { unfold instance_table, instance_memo. rewrite Hx. simpl. rewrite Hd.
    simpl. by rewrite Hdn. }
  rewrite Htab, !fmap_app in Hkeys. simpl in Hkeys.
  destruct (keys_evict (Z.to_nat k) (key <$> cs) (key <$> rs) (key cnew)
              (key cv) (key <$> pre) (key <$> post)) as (Hgone & Hkept & Hin).
  { done. }
  { by rewrite length_fmap. }
  { intros k0 Hk0. apply list_elem_of_fmap in Hk0 as (c & -> & Hc).
    apply list_elem_of_fmap. exists c. auto. }
  { done. }
  { by rewrite Hcs, fmap_app. }
  { intros k0 Hk0. apply list_elem_of_fmap in Hk0 as (c & -> & Hc).
    apply list_elem_of_fmap. exists c. auto. }
  { intros Hk0. apply list_elem_of_fmap in Hk0 as (c & Heq & Hc).
    apply make_key_inj in Heq. by subst c. }
  rewrite <- Hkeys in Hgone, Hkept, Hin.
  assert (Hmiss : cache_get (key cv) (instance_table name W' x) = None)
    by (by apply cache_get_None).
  split_and!.
  - by rewrite cached_result_table.
  - intros c Hc Hne. rewrite cached_result_table.
    apply cache_get_is_Some, Hkept.
    + apply list_elem_of_fmap. by exists c.
    + intros Heq. apply make_key_inj in Heq. done.
  - rewrite cached_result_table. by apply cache_get_is_Some.
  - destruct (run f x cv.1 cv.2 (user W')) as [ro u] eqn:Hrun.
    destruct (lru_step_miss (Z.max 0 <$> maxsize self) _ _ ro Hmiss)
      as (t2 & Hstep & _).
    destruct (invoke_spec _ _ _ _ _ _ _ _ _ _ _ _ _ _
                Hatt Hwf' Hx' Hd' Hw' Hrun Hstep)
      as (W2 & _ & _ & Hinv & _ & _ & _ & _ & _ & _ & Hc2 & _).
    by exists ro, W2.
Qed.

(** ** Ownership *)





End Proofs.

(** ** The descriptor's write-once fields *)




(** C6 (the operation is write-once): on a descriptor that holds a
    function, supplying that function again returns the descriptor and
    leaves it as it was, and supplying anything else raises the TypeError
    of [__call__] and leaves it as it was. *)
Theorem call_same_func_noop self f :
  func self = Some f → cm_wf self →
  cm_call (Some f) self = (Ok self, self) ∧
  ∀ g, g ≠ Some f →
       cm_call g self = (Raise (TypeError msg_reassign), self).
Proof.
  unfold cm_wf. intros Hf Hw. rewrite Hf in Hw. split.
  - unfold cm_call. rewrite Hf.
    rewrite (bool_decide_eq_false_2 (Some f ≠ Some f))
      by (intros H; by apply H).
    rewrite andb_false_r. destruct self; simpl in *. by subst.
  - intros g Hg. unfold cm_call. rewrite Hf.
    by rewrite !bool_decide_eq_true_2.
Qed.

(** C5 (the name is write-once), as the code has it: on a descriptor that
    has a name, attaching it again under that name changes nothing, and
    attaching it under a different name raises the TypeError of
    [__set_name__] and changes nothing either: the descriptor keeps its
    first name and goes on working under it. *)
Theorem set_name_keeps_first_name self old :
  methname self = Some old →
  (∀ owner, cm_set_name owner old self = (Ok tt, self)) ∧
  (∀ owner name, name ≠ old →
     cm_set_name owner name self =
       (Raise (TypeError (msg_two_names old name)), self)) ∧
  (∀ owner name, methname (cm_set_name owner name self).2 = Some old).
Proof.
  intros Hn. split_and!.
  - intros owner. unfold cm_set_name. rewrite Hn.
    by rewrite bool_decide_eq_false_2 by (intros H; by apply H).
  - intros owner name Hne. unfold cm_set_name. rewrite Hn.
    by rewrite bool_decide_eq_true_2.
  - intros owner name. unfold cm_set_name. rewrite Hn.
    by destruct (bool_decide _).
Qed.

(** ** The concrete program *)

Lemma ex_world_wf self name f : wf_world self name f ex_world.
Proof.
  split.
  - intros m _. apply lookup_empty.
  - intros x inst d a Hx Hs Hd. unfold ex_world in Hx. simpl in Hx.
    repeat (apply lookup_insert_Some in Hx as [[_ <-]|[_ Hx]];
            [simpl in Hs; try discriminate Hs; injection Hs as <-;
             by rewrite lookup_empty in Hd|]).
    by rewrite lookup_empty in Hx.
Qed.

Lemma ex_attached ms :
  attached (ex_binder ms) "compute" ex_compute.
Proof. done. Qed.

Lemma ex_world_used_wf :
  wf_world (ex_binder None) "compute" ex_compute ex_world_used.
Proof.
  destruct (invoke_frame ex_run (ex_binder None) "compute" ex_compute 0
              ex_world [VInt 10] [] (ex_attached None)
              (ex_world_wf _ _ _))
    as (out & W' & Heq & Hwf & _).
  unfold ex_world_used. by rewrite Heq.
Qed.

(** The test-suite's first test: [compute(10)] twice, then [compute(20)]. *)
Example ex_test_same_args :
  let W3 := invoke_seq ex_run (ex_binder None) "compute" 0
              [([VInt 10], []); ([VInt 10], []); ([VInt 20], [])] ex_world in
  length (calls W3) = 2 ∧ user W3 = 2.
Proof. by vm_compute. Qed.

(** The test-suite's second test, with [maxsize=1]. *)
Example ex_test_maxsize_one :
  length (calls (invoke_seq ex_run (ex_binder (Some 1%Z)) "compute" 0
              [([VInt 1], []); ([VInt 2], []); ([VInt 1], [])] ex_world)) = 3.
Proof. by vm_compute. Qed.

(** With capacity zero nothing is kept. *)
Example ex_capacity_zero :
  length (calls (invoke_seq ex_run (ex_binder (Some 0%Z)) "compute" 0
              [([VInt 1], []); ([VInt 1], [])] ex_world)) = 2.
Proof. by vm_compute. Qed.

(** ** Where the code departs from the claims *)

(** C1, the claim as stated fails, in two ways.  With capacity zero the
    second of two invocations with the same arguments calls the
    underlying function again.  And an instance with a mutable dictionary
    that cannot be weakly referenced gets no wrapper: its first
    invocation raises the TypeError of [weakref], the underlying function
    is not called, and the world is as before, so that every later
    invocation raises too. *)
Lemma memoizing_needs_weakref_and_capacity :
  (invoke ex_run (ex_binder (Some 0%Z)) "compute" 0 [VInt 1] [] ex_world).1
    = Ok (VInt 1) ∧
  calls (invoke_seq ex_run (ex_binder (Some 0%Z)) "compute" 0
           [([VInt 1], []); ([VInt 1], [])] ex_world)
    = [mkCall ex_compute 0 [VInt 1] []; mkCall ex_compute 0 [VInt 1] []] ∧
  dict <$> heap ex_world !! 4 = Some (Dict ∅) ∧
  invoke ex_run (ex_binder None) "compute" 4 [VInt 1] [] ex_world
    = (Raise (TypeError (msg_no_weakref "Pair")), ex_world).
Proof. by vm_compute. Qed.

(** C5, the claim as stated fails: after the second attachment has raised,
    the descriptor still works under its first name, and can be attached
    under that name again. *)
Lemma usable_after_name_conflict :
  (cm_set_name "D" "other" (ex_binder None)).1
    = Raise (TypeError (msg_two_names "compute" "other")) ∧
  (invoke ex_run (cm_set_name "D" "other" (ex_binder None)).2
          "compute" 0 [VInt 10] [] ex_world).1 = Ok (VInt 10) ∧
  (cm_set_name "E" "compute" (cm_set_name "D" "other" (ex_binder None)).2).1
    = Ok tt.
Proof. by vm_compute. Qed.


(** ** The theorems at work on the concrete program *)

Lemma invoke_twice_calls_once_witness :
  ∃ r1 W1 W2,
    invoke ex_run (ex_binder None) "compute" 0 [VInt 10] [] ex_world
      = (Ok r1, W1) ∧
    invoke ex_run (ex_binder None) "compute" 0 [VInt 10] [] W1
      = (Ok r1, W2) ∧
    calls W2 = calls W1 ∧
    match cached_result "compute" ex_world 0
            (make_key [VInt 10] [] (typed (ex_binder None))) with
    | None => r1 = VInt 10 ∧
              calls W1 = calls ex_world ++ [mkCall ex_compute 0 [VInt 10] []]
    | Some r0 => r1 = r0 ∧ calls W1 = calls ex_world
    end.
Proof.
  apply (invoke_twice_calls_once ex_run (ex_binder None) "compute"
           ex_compute 0 ex_world (mkInstance "C" (Dict ∅) true) ∅
           [VInt 10] [] (VInt 10)).
  - apply ex_attached.
  - left. reflexivity.
  - apply ex_world_wf.
  - reflexivity.
  - reflexivity.
  - reflexivity.
  - intros _. reflexivity.
Defined.

Lemma invoke_frames_other_instance_witness :
  heap (invoke_seq ex_run (ex_binder None) "compute" 0
          [([VInt 10], []); ([VInt 20], [])] ex_world) !! 1
    = heap ex_world !! 1 ∧
  instance_memo "compute"
    (invoke_seq ex_run (ex_binder None) "compute" 0
       [([VInt 10], []); ([VInt 20], [])] ex_world) 1
    = instance_memo "compute" ex_world 1 ∧
  filter (λ c, call_self c = 1)
    (calls (invoke_seq ex_run (ex_binder None) "compute" 0
              [([VInt 10], []); ([VInt 20], [])] ex_world))
    = filter (λ c, call_self c = 1) (calls ex_world) ∧
  ∀ args kwds u,
    (invoke ex_run (ex_binder None) "compute" 1 args kwds
       (set_user u (invoke_seq ex_run (ex_binder None) "compute" 0
                      [([VInt 10], []); ([VInt 20], [])] ex_world))).1 =
    (invoke ex_run (ex_binder None) "compute" 1 args kwds
       (set_user u ex_world)).1.
Proof.
  apply (invoke_frames_other_instance ex_run (ex_binder None) "compute"
           ex_compute 0 1 ex_world [([VInt 10], []); ([VInt 20], [])]).
  - apply ex_attached.
  - apply ex_world_wf.
  - lia.
Defined.

Lemma call_after_reclaim_raises_witness :
  lru_wrapper_call ex_run 0 [VInt 20] [] (reclaim 0 ex_world_used) =
    (Raise (RuntimeError msg_collected), reclaim 0 ex_world_used).
Proof.
  apply (call_after_reclaim_raises ex_run (ex_binder None) "compute"
           ex_compute 0 ex_world_used
           (mkInstance "C" (Dict (<["compute" := AMemo 0]> ∅)) true)
           (<["compute" := AMemo 0]> ∅) 0
           (memo_for (ex_binder None) 0 ex_compute
              [(make_key [VInt 10] [] false, VInt 10)])).
  - apply ex_world_used_wf.
  - reflexivity.
  - reflexivity.
  - reflexivity.
  - reflexivity.
  - reflexivity.
Defined.

Lemma raised_error_not_cached_witness :
  ∃ W1,
    invoke ex_run (ex_binder None) "compute" 0 [] [] ex_world
      = (Raise (UserError "ValueError" VNone), W1) ∧
    calls W1 = calls ex_world ++ [mkCall ex_compute 0 [] []] ∧
    instance_table "compute" W1 0 = instance_table "compute" ex_world 0 ∧
    cached_result "compute" W1 0 (make_key [] [] (typed (ex_binder None)))
      = None ∧
    ∃ W2,
      invoke ex_run (ex_binder None) "compute" 0 [] [] W1
        = ((ex_run ex_compute 0 [] [] (user W1)).1, W2) ∧
      calls W2 = calls W1 ++ [mkCall ex_compute 0 [] []].
Proof.
  apply (raised_error_not_cached ex_run (ex_binder None) "compute" ex_compute 0
           ex_world (mkInstance "C" (Dict ∅) true) ∅ [] []
           (UserError "ValueError" VNone) 1).
  - apply ex_attached.
  - apply ex_world_wf.
  - reflexivity.
  - reflexivity.
  - reflexivity.
  - reflexivity.
  - reflexivity.
Defined.

Lemma failed_get_changes_nothing_witness :
  (cm_get (U := nat) (ex_binder None) (Some 3) ex_world).1
    = Raise (TypeError (msg_no_item_assignment "MyMeta" "compute")) ∧
  ∀ e W1,
    cm_get (ex_binder None) (Some 3) ex_world = (Raise e, W1) →
    heap W1 = heap ex_world ∧ calls W1 = calls ex_world ∧
    user W1 = user ex_world ∧
    ∃ W2, cm_get (ex_binder None) (Some 3) W1 = (Raise e, W2) ∧
          heap W2 = heap ex_world.
Proof.
  destruct (failed_get_changes_nothing (ex_binder None) 3 ex_world)
    as (_ & _ & Hro & Hany).
  split; [|exact Hany].
  apply (Hro "compute" ex_compute (mkInstance "MyMeta" (MappingProxy ∅) true) ∅).
  - apply ex_attached.
  - reflexivity.
  - reflexivity.
  - reflexivity.
Defined.


Lemma call_same_func_noop_witness :
  cm_call (Some ex_compute) (ex_binder None)
    = (Ok (ex_binder None), ex_binder None) ∧
  ∀ g, g ≠ Some ex_compute →
       cm_call g (ex_binder None)
         = (Raise (TypeError msg_reassign), ex_binder None).
Proof.
  apply (call_same_func_noop (ex_binder None) ex_compute).
  - reflexivity.
  - reflexivity.
Defined.

Lemma set_name_keeps_first_name_witness :
  (∀ owner, cm_set_name owner "compute" (ex_binder None)
              = (Ok tt, ex_binder None)) ∧
  (∀ owner name, name ≠ "compute" →
     cm_set_name owner name (ex_binder None) =
       (Raise (TypeError (msg_two_names "compute" name)), ex_binder None)) ∧
  (∀ owner name,
     methname (cm_set_name owner name (ex_binder None)).2 = Some "compute").
Proof.
  apply (set_name_keeps_first_name (ex_binder None) "compute").
  reflexivity.
Defined.

Lemma ex_compute_returns x v :
  always_returns ex_run ex_compute x ([v], []).
Proof. intros u. by exists v, (S u). Qed.

Lemma lru_eviction_order_witness :
  let W' := invoke_seq ex_run (ex_binder (Some 2%Z)) "compute" 0
              ([([VInt 1], []); ([VInt 2], [])] ++ [([VInt 1], [])]
               ++ [([VInt 3], [])]) ex_world in
  cached_result "compute" W' 0 (make_key [VInt 2] [] false) = None ∧
  (∀ c, c ∈ [([VInt 1], []); ([VInt 2], [])] → c ≠ ([VInt 2], []) →
        is_Some (cached_result "compute" W' 0 (make_key c.1 c.2 false))) ∧
  is_Some (cached_result "compute" W' 0 (make_key [VInt 3] [] false)) ∧
  ∃ out W'',
    invoke ex_run (ex_binder (Some 2%Z)) "compute" 0 [VInt 2] [] W'
      = (out, W'') ∧
    calls W'' = calls W' ++ [mkCall ex_compute 0 [VInt 2] []].
Proof.
  destruct (lru_eviction_order ex_run (ex_binder (Some 2%Z)) "compute"
              ex_compute 0 ex_world (mkInstance "C" (Dict ∅) true) ∅)
    as [Hbounded _].
  - apply ex_attached.
  - apply ex_world_wf.
  - reflexivity.
  - reflexivity.
  - reflexivity.
  - apply (Hbounded 2%Z [([VInt 1], []); ([VInt 2], [])] [([VInt 1], [])]
             ([VInt 3], []) [([VInt 1], [])] ([VInt 2], []) []).
    + reflexivity.
    + lia.
    + reflexivity.
    + intros c Hc. simpl in Hc.
      repeat (apply elem_of_cons in Hc as [->|Hc];
              [apply ex_compute_returns|]).
      by apply elem_of_nil in Hc.
    + apply (bool_decide_unpack _). by vm_compute.
    + reflexivity.
    + intros c Hc. apply list_elem_of_singleton in Hc as ->.
      apply list_elem_of_here.
    + apply (bool_decide_unpack _). by vm_compute.
    + reflexivity.
    + intros c Hc. exact Hc.
    + apply (bool_decide_unpack _). by vm_compute.
Defined.


(** * Further properties *)

(** ** The life of a descriptor *)








Section More.

Context {U : Type}.
Variable run :
  Func → nat → list Val → list (string * Val) → U → Result Val * U.

Implicit Types (W : World U) (self : cached_method) (f : Func)
  (x y m : nat) (args : list Val) (kwds : list (string * Val))
  (t : list (Key * Val)).

(** ** What resolving does and does not do *)

(** The ways [__get__] on an instance can end. *)
Lemma cm_get_cases self x W :
  (cm_get self (Some x) W).2 = W ∨
  (∃ name f inst d,
     attached self name f ∧ heap W !! x = Some inst ∧
     dict inst = MappingProxy d ∧ dict_get name d = None ∧
     cm_get self (Some x) W =
       (Raise (TypeError (msg_no_item_assignment (type_name inst) name)),
        with_lost_memo W (memo_for self x f []))) ∨
  (∃ name f inst d,
     attached self name f ∧ heap W !! x = Some inst ∧
     dict inst = Dict d ∧ dict_get name d = None ∧
     cm_get self (Some x) W =
       (Ok (GotAttr (AMemo (next_memo W))),
        with_new_memo W x
          (mkInstance (type_name inst)
             (Dict (<[name := AMemo (next_memo W)]> d)) (has_weakref inst))
          (memo_for self x f []))).
Proof.
  destruct (methname self) as [name|] eqn:Hn.
  2: { left. by rewrite (cm_get_no_name _ _ _ Hn). }
  destruct (heap W !! x) as [inst|] eqn:Hx.
  2: { left. by rewrite (cm_get_no_instance _ _ _ _ Hn Hx). }
  destruct (dict inst) as [|d|d] eqn:Hd.
  - left. by rewrite (cm_get_no_dict _ _ _ _ _ Hn Hx Hd).
  - destruct (dict_get name d) as [a|] eqn:Hg.
    { left. by rewrite (cm_get_found _ _ _ _ _ d _ Hn Hx)
        by (by rewrite ?Hd). }
    destruct (func self) as [f|] eqn:Hf.
    + right. left. exists name, f, inst, d. split_and!; try done.
      by eapply cm_get_read_only.
    + left. by rewrite (cm_get_no_func _ _ _ _ _ d Hn Hf Hx)
        by (by rewrite ?Hd).
  - destruct (dict_get name d) as [a|] eqn:Hg.
    { left. by rewrite (cm_get_found _ _ _ _ _ d _ Hn Hx)
        by (by rewrite ?Hd). }
    destruct (func self) as [f|] eqn:Hf.
    + destruct (weakly_referenceable inst) eqn:Hw.
      * right. right. exists name, f, inst, d. split_and!; try done.
        by eapply cm_get_create.
      * left. by rewrite (cm_get_no_weakref _ _ f _ _ _ d (conj Hn Hf) Hx)
          by (by rewrite ?Hd).
    + left. by rewrite (cm_get_no_func _ _ _ _ _ d Hn Hf Hx)
        by (by rewrite ?Hd).
Qed.

(** X2 (resolving is local): [__get__] never calls the underlying function
    and never touches the user state, another instance or an existing
    wrapper; on its own instance it changes nothing, or adds to an
    ordinary dictionary that had nothing under the bound name exactly one
    entry, under that name, for a wrapper that did not exist before.
    Accessed on the class it returns the descriptor and changes nothing. *)
Theorem resolve_is_local self x W :
  cm_get self None W = (Ok (GotSelf self), W) ∧
  calls (cm_get self (Some x) W).2 = calls W ∧
  user (cm_get self (Some x) W).2 = user W ∧
  (∀ y, y ≠ x → heap (cm_get self (Some x) W).2 !! y = heap W !! y) ∧
  (∀ m, m < next_memo W →
        memos (cm_get self (Some x) W).2 !! m = memos W !! m) ∧
  (heap (cm_get self (Some x) W).2 = heap W ∨
   ∃ name inst d,
     methname self = Some name ∧ heap W !! x = Some inst ∧
     dict inst = Dict d ∧ dict_get name d = None ∧
     heap (cm_get self (Some x) W).2 =
       <[x := mkInstance (type_name inst)
                (Dict (<[name := AMemo (next_memo W)]> d))
                (has_weakref inst)]> (heap W)).
Proof.
  split; [done|].
  destruct (cm_get_cases self x W)
    as [->|[(name & f & inst & d & Hatt & Hx & Hd & Hg & ->)
           |(name & f & inst & d & Hatt & Hx & Hd & Hg & ->)]].
  - split_and!; auto.
  - simpl. split_and!; auto.
    intros m Hm. rewrite lookup_insert_ne; [done|lia].
  - simpl. split_and!; auto.
    + intros y Hy. by rewrite lookup_insert_ne.
    + intros m Hm. rewrite lookup_insert_ne; [done|lia].
    + right. exists name, inst, d. split_and!; try done. apply Hatt.
Qed.

(** X3 (resolving twice): once [__get__] has returned an attribute for an
    instance, calling it again returns the same attribute and changes
    nothing: no second wrapper is created. *)
Theorem resolve_twice self x W a W1 :
  cm_get self (Some x) W = (Ok (GotAttr a), W1) →
  cm_get self (Some x) W1 = (Ok (GotAttr a), W1).
Proof.
  intros Hget.
  destruct (cm_get_cases self x W)
    as [Hsame|[(name & f & inst & d & Hatt & Hx & Hd & Hg & Heq)
              |(name & f & inst & d & Hatt & Hx & Hd & Hg & Heq)]].
  - rewrite Hget in Hsame. simpl in Hsame. by subst W1.
  - rewrite Heq in Hget. done.
  - rewrite Heq in Hget. injection Hget as <- <-.
    eapply cm_get_found.
    + apply Hatt.
    + simpl. apply lookup_insert_eq.
    + done.
    + apply dict_get_memo, lookup_insert_eq.
Qed.

(** ** One wrapper per instance *)

(** Where an invocation on a live instance with a dictionary leaves the
    wrapper. *)
Lemma invoke_alloc self name f x W inst d args kwds :
  attached self name f → wf_world self name f W →
  heap W !! x = Some inst → dict inst = Dict d →
  weakly_referenceable inst = true ∨ is_Some (d !! name) →
  ∃ m inst' d',
    wf_world self name f (invoke run self name x args kwds W).2 ∧
    heap (invoke run self name x args kwds W).2 !! x = Some inst' ∧
    dict inst' = Dict d' ∧ d' !! name = Some (AMemo m) ∧
    match d !! name with
    | Some a =>
        a = AMemo m ∧
        next_memo (invoke run self name x args kwds W).2 = next_memo W ∧
        heap (invoke run self name x args kwds W).2 = heap W
    | None =>
        m = next_memo W ∧
        next_memo (invoke run self name x args kwds W).2 = S (next_memo W)
    end.
Proof.
  intros Hatt Hwf Hx Hd Hw.
  destruct (getattr_ok _ _ _ _ _ _ _ Hatt Hwf Hx Hd Hw)
    as (m & W1 & inst1 & d1 & Hget & Hwf1 & _ & Hm1 & Hx1 & Hd1 & Hdn1
        & _ & _ & Hu1 & Hnew & Hsame).
  destruct (run f x args kwds (user W1)) as [ro u] eqn:Hrun.
  destruct (lru_step (Z.max 0 <$> maxsize self)
              (make_key args kwds (typed self))
              (instance_table name W x) ro)
    as [[out t'] called] eqn:Hstep.
  pose proof (lru_call_live run _ _ _ _ _ _ _ _ _ _ _ _ _ _
                Hm1 Hx1 Hrun Hstep) as Hcall.
  assert (Hinv : invoke run self name x args kwds W =
                 (out, after_call W1 m (memo_for self x f t') called
                         (mkCall f x args kwds) u)).
  { unfold invoke, bind. by rewrite Hget. }
  rewrite Hinv. simpl. exists m, inst1, d1.
  split_and!; [by eapply wf_after_call|done|done|done|].
  destruct (d !! name) as [a|] eqn:Hdn.
  - rewrite (Hsame (mk_is_Some _ _ eq_refl)) in Hx1 |- *.
    rewrite Hx in Hx1. injection Hx1 as <-. rewrite Hd in Hd1.
    injection Hd1 as <-. rewrite Hdn in Hdn1. by injection Hdn1 as ->.
  - rewrite (Hnew eq_refl) in Hx1 |- *. simpl in *.
    rewrite lookup_insert_eq in Hx1. injection Hx1 as <-. simpl in Hd1.
    injection Hd1 as <-. rewrite lookup_insert_eq in Hdn1.
    by injection Hdn1 as <-.
Qed.

(** Once the wrapper is installed, a run of invocations creates none. *)
Lemma invoke_seq_no_alloc self name f x cs :
  attached self name f →
  ∀ W inst d,
    wf_world self name f W → heap W !! x = Some inst → dict inst = Dict d →
    is_Some (d !! name) →
    wf_world self name f (invoke_seq run self name x cs W) ∧
    heap (invoke_seq run self name x cs W) = heap W ∧
    next_memo (invoke_seq run self name x cs W) = next_memo W.
Proof.
  intros Hatt. induction cs as [|c cs IH]; intros W inst d Hwf Hx Hd Hdn.
  - done.
  - rewrite invoke_seq_cons.
    destruct (invoke_alloc self name f x W inst d c.1 c.2 Hatt Hwf Hx Hd
                (or_intror Hdn))
      as (m & inst' & d' & Hwf1 & Hx1 & Hd1 & Hdn1 & Hcase).
    destruct Hdn as [a Hdn]. rewrite Hdn in Hcase.
    destruct Hcase as (-> & Hnext & Hheap).
    destruct (IH _ inst' d' Hwf1 Hx1 Hd1 (mk_is_Some _ _ Hdn1))
      as (Hwf2 & Hheap2 & Hnext2).
    split_and!; [done|by rewrite Hheap2|by rewrite Hnext2].
Qed.

(** X4 (one wrapper per instance): on a live instance with an ordinary
    dictionary that can be weakly referenced, after the first invocation of a run, however each call
    ends, the instance holds a wrapper under the bound name; it is the one
    it held before the run if there was one and a new one otherwise, and
    the whole run creates no other wrapper. *)
Theorem one_wrapper_per_instance self name f x W inst d c cs :
  attached self name f → wf_world self name f W →
  heap W !! x = Some inst → dict inst = Dict d →
  weakly_referenceable inst = true →
  ∃ m,
    holds_wrapper name (invoke_seq run self name x (c :: cs) W) x m ∧
    match d !! name with
    | Some a =>
        a = AMemo m ∧
        next_memo (invoke_seq run self name x (c :: cs) W) = next_memo W
    | None =>
        m = next_memo W ∧
        next_memo (invoke_seq run self name x (c :: cs) W) = S (next_memo W)
    end.
Proof.
  intros Hatt Hwf Hx Hd Hw. rewrite invoke_seq_cons.
  destruct (invoke_alloc self name f x W inst d c.1 c.2 Hatt Hwf Hx Hd
              (or_introl Hw))
    as (m & inst' & d' & Hwf1 & Hx1 & Hd1 & Hdn1 & Hcase).
  destruct (invoke_seq_no_alloc self name f x cs Hatt _ inst' d'
              Hwf1 Hx1 Hd1 (mk_is_Some _ _ Hdn1))
    as (_ & Hheap2 & Hnext2).
  exists m. split.
  - exists inst', d'. rewrite Hheap2. by rewrite Hd1.
  - rewrite Hnext2. destruct (d !! name); [|done].
    by destruct Hcase as (? & ? & _).
Qed.

(** ** Distinct arguments *)

(** X5 (one call per distinct argument list): with the capacity unset, on
    a live instance with an ordinary dictionary that can be weakly
    referenced and an underlying function that returns, a run of invocations calls the function exactly for the
    calls whose key was neither cached before the run nor used earlier in
    it, once each, in order, with the instance as [self] and the
    arguments as given. *)
Theorem one_call_per_key self name f x cs :
  attached self name f → maxsize self = None →
  (∀ c, c ∈ cs → always_returns run f x c) →
  ∀ W inst d,
    wf_world self name f W → heap W !! x = Some inst → dict inst = Dict d →
    weakly_referenceable inst = true →
    calls (invoke_seq run self name x cs W) =
      calls W ++
      ((λ c, mkCall f x c.1 c.2) <$>
         first_calls (typed self) ((instance_table name W x).*1) cs).
Proof.
  intros Hatt Hms Hret W inst d Hwf Hx Hd Hw0.
  assert (Hw : weakly_referenceable inst = true ∨ is_Some (d !! name))
    by (by left).
  clear Hw0. revert Hret W inst d Hwf Hx Hd Hw.
  induction cs as [|c cs IH]; intros Hret W inst d Hwf Hx Hd Hw.
  - simpl. by rewrite app_nil_r.
  - rewrite invoke_seq_cons.
    destruct (Hret c (list_elem_of_here _ _) (user W)) as (r & u & Hrun).
    destruct (lru_step (Z.max 0 <$> maxsize self)
                (make_key c.1 c.2 (typed self))
                (instance_table name W x) (Ok r))
      as [[out t'] called] eqn:Hstep.
    destruct (invoke_spec run _ _ _ _ _ _ _ _ _ _ _ _ _ _
                Hatt Hwf Hx Hd Hw Hrun Hstep)
      as (W1 & inst1 & d1 & Hinv & Hwf1 & _ & Him1 & Hx1 & Hd1 & Hn1 & Hc1
          & _).
    rewrite Hinv. simpl.
    rewrite (IH (λ c' H, Hret c' (list_elem_of_further _ _ _ H))
                W1 inst1 d1 Hwf1 Hx1 Hd1 (or_intror Hn1)).
    rewrite Hc1, (instance_table_memo _ _ _ _ Him1), memo_for_cache.
    rewrite Hms in Hstep. unfold lru_step in Hstep. simpl in Hstep.
    destruct (cache_get (make_key c.1 c.2 (typed self))
                (instance_table name W x)) as [r0|] eqn:Hg.
    + injection Hstep as <- <- <-.
      rewrite decide_True.
      2: { apply cache_get_Some_elem in Hg.
           apply list_elem_of_fmap.
           by exists (make_key c.1 c.2 (typed self), r0). }
      by rewrite app_nil_r.
    + injection Hstep as <- <- <-.
      rewrite decide_False by (by apply cache_get_None).
      rewrite fmap_app, fmap_cons, <- app_assoc. done.
Qed.

(** ** A hit does not look at the present *)

(** With the capacity unset, invoking on a cached key returns the cached
    value and changes nothing. *)
Lemma invoke_hit_unbounded self name f x W args kwds v :
  maxsize self = None → wf_world self name f W →
  cached_result name W x (make_key args kwds (typed self)) = Some v →
  invoke run self name x args kwds W = (Ok v, W).
Proof.
  intros Hms Hwf Hg. unfold cached_result in Hg.
  destruct (instance_memo name W x) as [μ|] eqn:Him; [|done]. simpl in Hg.
  apply instance_memo_Some in Him as (inst & d & m & Hx & Hs & Hd & Hm).
  destruct (wf_instance_memo _ _ _ _ _ _ _ _ Hwf Hx Hs Hd)
    as (m' & t & [= <-] & Hm' & _).
  rewrite Hm in Hm'. injection Hm' as ->. rewrite memo_for_cache in Hg.
  destruct (run f x args kwds (user W)) as [ro u] eqn:Hrun.
  assert (Hstep : lru_step (Z.max 0 <$> maxsize self)
                    (make_key args kwds (typed self)) t ro = (Ok v, t, false)).
  { rewrite Hms. unfold lru_step. simpl. by rewrite Hg. }
  unfold invoke, bind.
  rewrite (getattr_found _ _ _ _ _ _ _ Hx Hs Hd). simpl.
  rewrite (lru_call_live run _ _ _ _ _ _ _ _ _ _ _ _ _ _ Hm Hx Hrun Hstep).
  by rewrite after_call_quiet.
Qed.

(** X6 (a cached value is never refreshed): with the capacity unset, once
    a result is cached for some arguments on an instance, every later
    invocation with those arguments returns that same value without
    calling the underlying function and without changing anything,
    whatever invocations were made on the instance in between and
    whatever the user state has become. *)
Theorem cached_value_is_kept self name f x W inst d args kwds v cs u :
  attached self name f → maxsize self = None → wf_world self name f W →
  heap W !! x = Some inst → dict inst = Dict d →
  cached_result name W x (make_key args kwds (typed self)) = Some v →
  invoke run self name x args kwds
    (set_user u (invoke_seq run self name x cs W))
  = (Ok v, set_user u (invoke_seq run self name x cs W)).
Proof.
  intros Hatt Hms Hwf Hx Hd Hg.
  destruct (invoke_seq_frame run self name f x cs W Hatt Hwf) as (Hwf' & _).
  eapply invoke_hit_unbounded; [done|by apply wf_set_user|].
  change (cached_result name (set_user u ?V) x ?k)
    with (cached_result name V x k).
  by eapply invoke_seq_unbounded.
Qed.

(** ** A miss is the call itself *)

(** X7 (a miss forwards the call): on a live instance with an ordinary
    dictionary that can be weakly referenced, an invocation whose key is
    not cached calls the underlying
    function once, with the instance as [self] and the arguments and
    keyword arguments as given, returns or raises exactly what it returns
    or raises, and leaves the user state that it leaves. *)
Theorem miss_forwards_call self name f x W inst d args kwds ro u :
  attached self name f → wf_world self name f W →
  heap W !! x = Some inst → dict inst = Dict d →
  weakly_referenceable inst = true →
  cached_result name W x (make_key args kwds (typed self)) = None →
  run f x args kwds (user W) = (ro, u) →
  ∃ W',
    invoke run self name x args kwds W = (ro, W') ∧
    calls W' = calls W ++ [mkCall f x args kwds] ∧
    user W' = u.
Proof.
  intros Hatt Hwf Hx Hd Hw Hmiss Hrun.
  rewrite cached_result_table in Hmiss.
  destruct (lru_step_miss (Z.max 0 <$> maxsize self) _ _ ro Hmiss)
    as (t1 & Hstep & _).
  destruct (invoke_spec run _ _ _ _ _ _ _ _ _ _ _ _ _ _
              Hatt Hwf Hx Hd (or_introl Hw) Hrun Hstep)
    as (W1 & _ & _ & Hinv & _ & _ & _ & _ & _ & _ & Hc & Hu & _).
  by exists W1.
Qed.

(** ** Access under another attribute name *)

(** X8 (the bound name decides, not the attribute used): where the
    descriptor is reachable under an attribute [attr] for which the
    instance dictionary has no entry, [x.attr] gives what [x.name] gives
    for the bound name [name], with the same effect, and so does every
    invocation: the wrapper is looked up and stored under the bound
    name. *)
Theorem access_under_other_name self name f attr x W :
  methname self = Some name → wf_world self name f W →
  (∀ inst, heap W !! x = Some inst →
           store_items (dict inst) ≫= (.!! attr) = None) →
  getattr self attr x W = getattr self name x W ∧
  ∀ args kwds,
    invoke run self attr x args kwds W = invoke run self name x args kwds W.
Proof.
  intros Hn Hwf Hattr.
  assert (Heq : getattr self attr x W = getattr self name x W).
  { destruct (heap W !! x) as [inst|] eqn:Hx.
    2: { unfold getattr, bind, get_instance. by rewrite Hx. }
    rewrite (getattr_not_found _ attr _ _ _ Hx (Hattr _ eq_refl)).
    destruct (store_items (dict inst)) as [d|] eqn:Hs.
    2: { rewrite (getattr_not_found _ name _ _ _ Hx); [done|].
         by rewrite Hs. }
    destruct (d !! name) as [a|] eqn:Hd.
    - destruct (wf_instance_memo _ _ _ _ _ _ _ _ Hwf Hx Hs Hd)
        as (m & t & -> & _).
      rewrite (getattr_found _ _ _ _ _ _ _ Hx Hs Hd).
      by rewrite (cm_get_found _ _ _ _ _ _ _ Hn Hx Hs (dict_get_memo _ _ _ Hd)).
    - rewrite (getattr_not_found _ name _ _ _ Hx); [done|].
      rewrite Hs. simpl. done. }
  split; [done|]. intros args kwds. unfold invoke, bind. by rewrite Heq.
Qed.

(** ** After the owner is gone *)

(** A hit never resolves the weak reference. *)
Lemma lru_call_hit W self x f t m args kwds v :
  memos W !! m = Some (memo_for self x f t) →
  keeps (Z.max 0 <$> maxsize self) →
  cache_get (make_key args kwds (typed self)) t = Some v →
  ∃ W', lru_wrapper_call run m args kwds W = (Ok v, W') ∧
        heap W' = heap W ∧ calls W' = calls W ∧ user W' = user W ∧
        next_memo W' = next_memo W.
Proof.
  intros Hm Hk Hg. unfold lru_wrapper_call, bind, get_memo. rewrite Hm.
  simpl. destruct (maxsize self) as [k|]; simpl in *.
  - rewrite decide_False by lia. rewrite Hg. simpl. eauto 10.
  - rewrite Hg. eauto 10.
Qed.

(** X9 (cached results outlive the instance): a wrapper that an instance
    held, called after the instance has been reclaimed with arguments
    whose key it has cached, still returns the cached value; the
    underlying function is not called.  Only a miss needs the instance. *)
Theorem cached_served_after_reclaim self name f x W inst d m μ args kwds v :
  wf_world self name f W → capacity_ok self →
  heap W !! x = Some inst → store_items (dict inst) = Some d →
  d !! name = Some (AMemo m) → memos W !! m = Some μ →
  cache_get (make_key args kwds (lru_typed μ)) (cache μ) = Some v →
  ∃ W', lru_wrapper_call run m args kwds (reclaim x W) = (Ok v, W') ∧
        heap W' !! x = None ∧ calls W' = calls W ∧ user W' = user W.
Proof.
  intros Hwf Hcap Hx Hs Hd Hm Hg.
  destruct (wf_instance_memo _ _ _ _ _ _ _ _ Hwf Hx Hs Hd)
    as (m' & t & [= <-] & Hm' & _).
  rewrite Hm in Hm'. injection Hm' as ->.
  destruct (lru_call_hit (reclaim x W) self x f t m args kwds v)
    as (W' & Hcall & Hheap & Hc & Hu & _);
    [done|by apply capacity_ok_keeps|done|].
  exists W'. split_and!; [done| |done|done].
  rewrite Hheap. simpl. apply lookup_delete_eq.
Qed.

(** ** The invariant of the world *)

Lemma cm_get_wf self name f x W :
  attached self name f → wf_world self name f W →
  wf_world self name f (cm_get self (Some x) W).2.
Proof.
  intros [Hn Hf] Hwf.
  destruct (cm_get_cases self x W)
    as [->|[(name' & f' & inst & d & [Hn' Hf'] & Hx & Hd & Hg & ->)
           |(name' & f' & inst & d & [Hn' Hf'] & Hx & Hd & Hg & ->)]].
  - done.
  - by apply wf_with_lost_memo.
  - rewrite Hn in Hn'. rewrite Hf in Hf'.
    injection Hn' as <-. injection Hf' as <-.
    by apply wf_with_new_memo.
Qed.

Lemma getattr_wf self name f x W :
  attached self name f → wf_world self name f W →
  wf_world self name f (getattr self name x W).2.
Proof.
  intros Hatt Hwf.
  destruct (heap W !! x) as [inst|] eqn:Hx.
  2: { unfold getattr, bind, get_instance. by rewrite Hx. }
  destruct (store_items (dict inst) ≫= (.!! name)) as [a|] eqn:Hs.
  - unfold getattr, bind, get_instance. by rewrite Hx, Hs.
  - rewrite (getattr_not_found _ _ _ _ _ Hx Hs).
    pose proof (cm_get_wf self name f x W Hatt Hwf) as Hwf'.
    by destruct (cm_get self (Some x) W) as [[[b|a]|e] W1].
Qed.

Lemma run_events_wf self name f es W :
  attached self name f → wf_world self name f W →
  wf_world self name f (run_events run self name es W).
Proof.
  intros Hatt. revert W. induction es as [|e es IH]; intros W Hwf; [done|].
  apply IH. destruct e as [x|x args kwds|x]; simpl.
  - by apply getattr_wf.
  - destruct (invoke_frame run self name f x W args kwds Hatt Hwf)
      as (out & W' & -> & Hwf' & _). done.
  - by apply wf_reclaim.
Qed.

(** X10 (wrappers are never shared): start from a world in which whatever
    the instances hold under the bound name are wrappers built for them,
    for instance none at all.  After any sequence of attribute accesses,
    invocations and reclamations, on any instances and however they end,
    a wrapper that an instance holds under the bound name is held by no
    other instance, refers weakly to that very instance and to the
    descriptor's function, and has the capacity and the [typed] flag of
    the descriptor. *)
Theorem wrappers_never_shared self name f es W x m :
  attached self name f → wf_world self name f W →
  holds_wrapper name (run_events run self name es W) x m →
  (∀ y, holds_wrapper name (run_events run self name es W) y m → y = x) ∧
  ∃ μ, memos (run_events run self name es W) !! m = Some μ ∧
       ref (user_function μ) = mkWeakMethod x f ∧
       lru_maxsize μ = Z.max 0 <$> maxsize self ∧
       lru_typed μ = typed self ∧
       lru_wrapped μ = Some f.
Proof.
  intros Hatt Hwf (inst & d & Hx & Hs & Hd).
  pose proof (run_events_wf self name f es W Hatt Hwf) as Hwf'.
  destruct (wf_instance_memo _ _ _ _ _ _ _ _ Hwf' Hx Hs Hd)
    as (m' & t & [= <-] & Hm & _).
  split.
  - intros y (insty & dy & Hy & Hsy & Hdy).
    destruct (wf_instance_memo _ _ _ _ _ _ _ _ Hwf' Hy Hsy Hdy)
      as (m' & ty & [= <-] & Hm' & _).
    rewrite Hm in Hm'. by injection Hm' as ->.
  - by exists (memo_for self x f t).
Qed.

(** ** Instances that cannot hold a wrapper *)




End More.

(** ** The further properties at work on the concrete program *)

Lemma resolve_twice_witness :
  cm_get (ex_binder None) (Some 0)
         (cm_get (ex_binder None) (Some 0) ex_world).2
  = (Ok (GotAttr (AMemo 0)), (cm_get (ex_binder None) (Some 0) ex_world).2).
Proof.
  apply (resolve_twice (ex_binder None) 0 ex_world).
  reflexivity.
Defined.

Lemma one_wrapper_per_instance_witness :
  ∃ m,
    holds_wrapper "compute"
      (invoke_seq ex_run (ex_binder None) "compute" 0
         (([VInt 1], []) :: [([VInt 2], [])]) ex_world) 0 m ∧
    match (∅ : gmap string Attr) !! "compute" with
    | Some a =>
        a = AMemo m ∧
        next_memo (invoke_seq ex_run (ex_binder None) "compute" 0
                     (([VInt 1], []) :: [([VInt 2], [])]) ex_world)
        = next_memo ex_world
    | None =>
        m = next_memo ex_world ∧
        next_memo (invoke_seq ex_run (ex_binder None) "compute" 0
                     (([VInt 1], []) :: [([VInt 2], [])]) ex_world)
        = S (next_memo ex_world)
    end.
Proof.
  apply (one_wrapper_per_instance ex_run (ex_binder None) "compute"
           ex_compute 0 ex_world (mkInstance "C" (Dict ∅) true) ∅
           ([VInt 1], []) [([VInt 2], [])]).
  - apply ex_attached.
  - apply ex_world_wf.
  - reflexivity.
  - reflexivity.
  - reflexivity.
Defined.

Lemma one_call_per_key_witness :
  calls (invoke_seq ex_run (ex_binder None) "compute" 0
           [([VInt 10], []); ([VInt 10], []); ([VInt 20], [])] ex_world) =
  calls ex_world ++
  ((λ c, mkCall ex_compute 0 c.1 c.2) <$>
     first_calls (typed (ex_binder None))
       ((instance_table "compute" ex_world 0).*1)
       [([VInt 10], []); ([VInt 10], []); ([VInt 20], [])]).
Proof.
  apply (one_call_per_key ex_run (ex_binder None) "compute" ex_compute 0
           [([VInt 10], []); ([VInt 10], []); ([VInt 20], [])]
           (ex_attached None) eq_refl)
    with (inst := mkInstance "C" (Dict ∅) true) (d := ∅).
  - intros c Hc.
    repeat (apply elem_of_cons in Hc as [->|Hc];
            [apply ex_compute_returns|]).
    by apply elem_of_nil in Hc.
  - apply ex_world_wf.
  - reflexivity.
  - reflexivity.
  - reflexivity.
Defined.

Lemma cached_value_is_kept_witness :
  invoke ex_run (ex_binder None) "compute" 0 [VInt 10] []
    (set_user 7 (invoke_seq ex_run (ex_binder None) "compute" 0
                   [([VInt 20], [])] ex_world_used))
  = (Ok (VInt 10),
     set_user 7 (invoke_seq ex_run (ex_binder None) "compute" 0
                   [([VInt 20], [])] ex_world_used)).
Proof.
  apply (cached_value_is_kept ex_run (ex_binder None) "compute" ex_compute 0
           ex_world_used
           (mkInstance "C" (Dict (<["compute" := AMemo 0]> ∅)) true)
           (<["compute" := AMemo 0]> ∅) [VInt 10] [] (VInt 10)
           [([VInt 20], [])] 7).
  - apply ex_attached.
  - reflexivity.
  - apply ex_world_used_wf.
  - reflexivity.
  - reflexivity.
  - reflexivity.
Defined.

Lemma miss_forwards_call_witness :
  ∃ W',
    invoke ex_run (ex_binder None) "compute" 0 [VInt 10] [] ex_world
      = (Ok (VInt 10), W') ∧
    calls W' = calls ex_world ++ [mkCall ex_compute 0 [VInt 10] []] ∧
    user W' = 1.
Proof.
  apply (miss_forwards_call ex_run (ex_binder None) "compute" ex_compute 0
           ex_world (mkInstance "C" (Dict ∅) true) ∅ [VInt 10] []
           (Ok (VInt 10)) 1).
  - apply ex_attached.
  - apply ex_world_wf.
  - reflexivity.
  - reflexivity.
  - reflexivity.
  - reflexivity.
  - reflexivity.
Defined.

Lemma access_under_other_name_witness :
  getattr (U := nat) (ex_binder None) "other" 0 ex_world
    = getattr (ex_binder None) "compute" 0 ex_world ∧
  ∀ args kwds,
    invoke ex_run (ex_binder None) "other" 0 args kwds ex_world
    = invoke ex_run (ex_binder None) "compute" 0 args kwds ex_world.
Proof.
  apply (access_under_other_name ex_run (ex_binder None) "compute"
           ex_compute "other" 0 ex_world).
  - reflexivity.
  - apply ex_world_wf.
  - intros inst Hx. unfold ex_world in Hx. simpl in Hx.
    rewrite lookup_insert_eq in Hx. injection Hx as <-. reflexivity.
Defined.

Lemma cached_served_after_reclaim_witness :
  ∃ W', lru_wrapper_call ex_run 0 [VInt 10] [] (reclaim 0 ex_world_used)
          = (Ok (VInt 10), W') ∧
        heap W' !! 0 = None ∧ calls W' = calls ex_world_used ∧
        user W' = user ex_world_used.
Proof.
  apply (cached_served_after_reclaim ex_run (ex_binder None) "compute"
           ex_compute 0 ex_world_used
           (mkInstance "C" (Dict (<["compute" := AMemo 0]> ∅)) true)
           (<["compute" := AMemo 0]> ∅) 0
           (memo_for (ex_binder None) 0 ex_compute
              [(make_key [VInt 10] [] false, VInt 10)])).
  - apply ex_world_used_wf.
  - left. reflexivity.
  - reflexivity.
  - reflexivity.
  - reflexivity.
  - reflexivity.
  - reflexivity.
Defined.

Lemma wrappers_never_shared_witness :
  (∀ y, holds_wrapper "compute"
          (run_events ex_run (ex_binder None) "compute"
             [EInvoke 0 [VInt 1] []; EGet 1; EReclaim 2;
              EInvoke 3 [VInt 1] []] ex_world) y 0 → y = 0) ∧
  ∃ μ, memos (run_events ex_run (ex_binder None) "compute"
                [EInvoke 0 [VInt 1] []; EGet 1; EReclaim 2;
                 EInvoke 3 [VInt 1] []] ex_world) !! 0 = Some μ ∧
       ref (user_function μ) = mkWeakMethod 0 ex_compute ∧
       lru_maxsize μ = Z.max 0 <$> maxsize (ex_binder None) ∧
       lru_typed μ = typed (ex_binder None) ∧
       lru_wrapped μ = Some ex_compute.
Proof.
  apply (wrappers_never_shared ex_run (ex_binder None) "compute" ex_compute
           [EInvoke 0 [VInt 1] []; EGet 1; EReclaim 2; EInvoke 3 [VInt 1] []]
           ex_world 0 0).
  - apply ex_attached.
  - apply ex_world_wf.
  - exists (mkInstance "C" (Dict (<["compute" := AMemo 0]> ∅)) true),
           (<["compute" := AMemo 0]> ∅).
    split_and!; reflexivity.
Defined.


Section Tables.

Context {U : Type}.
Variable run :
  Func → nat → list Val → list (string * Val) → U → Result Val * U.

Implicit Types (W : World U) (self : cached_method) (f : Func)
  (x y m : nat) (args : list Val) (kwds : list (string * Val))
  (t : list (Key * Val)).

(** ** Caches are per instance *)

(** X12 (a key cached on one instance is a miss on another): whatever
    has been invoked, and so cached, on instance [x], an invocation on a
    distinct live instance [y] that has an ordinary dictionary and can be
    weakly referenced, with arguments not cached on [y], calls the
    underlying function on [y] and returns or raises what it returns or
    raises. *)
Theorem other_instance_misses self name f x y W inst d cs args kwds :
  attached self name f → wf_world self name f W → x ≠ y →
  heap W !! y = Some inst → dict inst = Dict d →
  weakly_referenceable inst = true →
  cached_result name W y (make_key args kwds (typed self)) = None →
  ∃ W',
    invoke run self name y args kwds (invoke_seq run self name x cs W)
      = ((run f y args kwds (user (invoke_seq run self name x cs W))).1, W') ∧
    calls W' = calls (invoke_seq run self name x cs W)
               ++ [mkCall f y args kwds].
Proof.
  intros Hatt Hwf Hne Hy Hd Hw Hmiss.
  destruct (invoke_seq_frame run self name f x cs W Hatt Hwf)
    as (Hwf' & Hfr & _).
  assert (Hy' : heap (invoke_seq run self name x cs W) !! y = Some inst).
  { destruct Hfr as [Hh _]. rewrite Hh; [done|auto]. }
  assert (Hmiss' : cache_get (make_key args kwds (typed self))
            (instance_table name (invoke_seq run self name x cs W) y) = None).
  { rewrite cached_result_table in Hmiss. unfold instance_table in *.
    by rewrite (frame_instance_memo self name f x y W _ Hwf Hfr)
      by auto. }
  destruct (run f y args kwds (user (invoke_seq run self name x cs W)))
    as [ro u] eqn:Hrun.
  destruct (lru_step_miss (Z.max 0 <$> maxsize self) _ _ ro Hmiss')
    as (t1 & Hstep & _).
  destruct (invoke_spec run _ _ _ _ _ _ _ _ _ _ _ _ _ _
              Hatt Hwf' Hy' Hd (or_introl Hw) Hrun Hstep)
    as (W1 & _ & _ & Hinv & _ & _ & _ & _ & _ & _ & Hc & _).
  by exists W1.
Qed.

(** ** The size of a table *)

Lemma lru_step_table_ok cap k t ro out t' called :
  lru_step cap k t ro = (out, t', called) →
  table_ok cap t → table_ok cap t'.
Proof.
  unfold lru_step, table_ok. intros Hstep [Hnd Hlen].
  assert (Hnew : cache_get k t = None → NoDup (t.*1 ++ [k])).
  { intros Hg. apply NoDup_app. split_and!; [done| |apply NoDup_singleton].
    intros k' Hin Hk. apply list_elem_of_singleton in Hk as ->.
    by apply cache_get_None in Hg. }
  destruct cap as [c|].
  - destruct (decide (c ≤ 0)%Z); [by injection Hstep as <- <- <-|].
    destruct (cache_get k t) as [r0|] eqn:Hg.
    + injection Hstep as <- <- <-.
      assert (Hin : k ∈ t.*1).
      { apply cache_get_Some_elem in Hg.
        apply list_elem_of_fmap. by exists (k, r0). }
      pose proof (keys_step_hit_perm (Z.to_nat c) _ k Hnd Hin) as Hperm.
      unfold keys_step in Hperm. rewrite decide_True in Hperm by done.
      unfold cache_touch. rewrite fmap_app, cache_del_keys. simpl.
      split; [by rewrite Hperm|].
      rewrite <- (length_fmap fst), fmap_app, cache_del_keys. simpl.
      rewrite Hperm. by rewrite length_fmap.
    + destruct ro as [r|e]; injection Hstep as <- <- <-; [|done].
      unfold cache_put. destruct (decide (length t < Z.to_nat c)).
      * rewrite fmap_app, length_app. simpl. split; [by apply Hnew|lia].
      * specialize (Hnew eq_refl). destruct t as [|[k0 v0] t0].
        { simpl in *. lia. }
        simpl in *. rewrite fmap_app, length_app. simpl. split; [|lia].
        by apply NoDup_cons in Hnew as [_ ?].
  - destruct (cache_get k t) as [r0|] eqn:Hg.
    + by injection Hstep as <- <- <-.
    + destruct ro as [r|e]; injection Hstep as <- <- <-; [|done].
      rewrite fmap_app. simpl. split; [by apply Hnew|done].
Qed.

(** X13 (the capacity bounds the table): on a live instance with an
    ordinary dictionary whose table is within the descriptor's capacity
    and has no repeated key, as an empty table is, the table stays so
    through any run of invocations, however the calls end: with
    [maxsize=k] an instance never caches more than [max(k, 0)] results,
    and never two for the same key. *)
Theorem table_stays_within_capacity self name f x cs :
  attached self name f →
  ∀ W inst d,
    wf_world self name f W → heap W !! x = Some inst → dict inst = Dict d →
    table_ok (Z.max 0 <$> maxsize self) (instance_table name W x) →
    table_ok (Z.max 0 <$> maxsize self)
             (instance_table name (invoke_seq run self name x cs W) x).
Proof.
  intros Hatt. induction cs as [|c cs IH]; intros W inst d Hwf Hx Hd Hok.
  - done.
  - rewrite invoke_seq_cons.
    assert (Hcase : (d !! name = None ∧ weakly_referenceable inst = false)
                    ∨ weakly_referenceable inst = true ∨ is_Some (d !! name)).
    { destruct (d !! name); [by eauto|].
      destruct (weakly_referenceable inst); auto. }
    destruct Hcase as [[Hdn Hw]|Hw].
    { rewrite (invoke_no_weakref run _ _ _ _ _ _ _ _ _ Hatt Hx Hd Hdn Hw).
      simpl. by apply (IH W inst d). }
    destruct (run f x c.1 c.2 (user W)) as [ro u] eqn:Hrun.
    destruct (lru_step (Z.max 0 <$> maxsize self)
                (make_key c.1 c.2 (typed self))
                (instance_table name W x) ro)
      as [[out t'] called] eqn:Hstep.
    destruct (invoke_spec run _ _ _ _ _ _ _ _ _ _ _ _ _ _
                Hatt Hwf Hx Hd Hw Hrun Hstep)
      as (W1 & inst1 & d1 & Hinv & Hwf1 & _ & Him1 & Hx1 & Hd1 & _).
    rewrite Hinv. simpl. apply (IH W1 inst1 d1 Hwf1 Hx1 Hd1).
    rewrite (instance_table_memo _ _ _ _ Him1), memo_for_cache.
    by eapply lru_step_table_ok.
Qed.

(** ** Caching switched off *)

(** X14 (a capacity below one switches caching off): with [maxsize=k] for
    [k <= 0], on a live instance with an ordinary dictionary that can be
    weakly referenced and has nothing cached, every invocation of a run calls the underlying
    function, also with arguments used before, and nothing is ever
    cached. *)
Theorem capacity_zero_forwards_all self name f x (k : Z) cs :
  attached self name f → maxsize self = Some k → (k ≤ 0)%Z →
  ∀ W inst d,
    wf_world self name f W → heap W !! x = Some inst → dict inst = Dict d →
    weakly_referenceable inst = true →
    instance_table name W x = [] →
    calls (invoke_seq run self name x cs W) =
      calls W ++ ((λ c, mkCall f x c.1 c.2) <$> cs) ∧
    instance_table name (invoke_seq run self name x cs W) x = [].
Proof.
  intros Hatt Hms Hk W inst d Hwf Hx Hd Hw0.
  assert (Hw : weakly_referenceable inst = true ∨ is_Some (d !! name))
    by (by left).
  clear Hw0. revert W inst d Hwf Hx Hd Hw.
  induction cs as [|c cs IH]; intros W inst d Hwf Hx Hd Hw Ht.
  - simpl. by rewrite app_nil_r.
  - rewrite invoke_seq_cons.
    destruct (run f x c.1 c.2 (user W)) as [ro u] eqn:Hrun.
    assert (Hstep : lru_step (Z.max 0 <$> maxsize self)
                      (make_key c.1 c.2 (typed self))
                      (instance_table name W x) ro
                    = (ro, instance_table name W x, true)).
    { rewrite Hms. unfold lru_step. simpl. by rewrite decide_True by lia. }
    destruct (invoke_spec run _ _ _ _ _ _ _ _ _ _ _ _ _ _
                Hatt Hwf Hx Hd Hw Hrun Hstep)
      as (W1 & inst1 & d1 & Hinv & Hwf1 & _ & Him1 & Hx1 & Hd1 & Hn1 & Hc & _).
    rewrite Hinv. simpl.
    assert (Ht1 : instance_table name W1 x = []).
    { by rewrite (instance_table_memo _ _ _ _ Him1), memo_for_cache. }
    destruct (IH W1 inst1 d1 Hwf1 Hx1 Hd1 (or_intror Hn1) Ht1)
      as [Hcalls Htab].
    split; [|done]. rewrite Hcalls, Hc, <- app_assoc. done.
Qed.

(** ** Instances that cannot be weakly referenced *)

(** X15 (no weak reference, no wrapper): on a live instance that has an
    ordinary dictionary with nothing under the bound name and cannot be
    weakly referenced, [__get__] raises the TypeError of [weakref] before
    it creates anything and without translating it, and so does every
    invocation of a run: the world stays exactly as it was, no wrapper is
    built, the dictionary gets no entry and the underlying function is
    never called. *)
Theorem no_weakref_never_binds self name f x W inst d cs :
  attached self name f →
  heap W !! x = Some inst → dict inst = Dict d → d !! name = None →
  weakly_referenceable inst = false →
  cm_get self (Some x) W =
    (Raise (TypeError (msg_no_weakref (type_name inst))), W) ∧
  invoke_seq run self name x cs W = W ∧
  ∀ args kwds,
    invoke run self name x args kwds (invoke_seq run self name x cs W) =
      (Raise (TypeError (msg_no_weakref (type_name inst))), W).
Proof.
  intros Hatt Hx Hd Hdn Hw.
  assert (Hseq : invoke_seq run self name x cs W = W).
  { induction cs as [|c cs IH]; [done|].
    rewrite invoke_seq_cons.
    by rewrite (invoke_no_weakref run _ _ _ _ _ _ _ _ _ Hatt Hx Hd Hdn Hw). }
  split_and!; [|done|].
  - apply (cm_get_no_weakref _ _ f _ _ _ d Hatt Hx);
      [by rewrite Hd|by apply dict_get_None|done].
  - intros args kwds. rewrite Hseq.
    by apply (invoke_no_weakref run _ _ f _ _ _ d).
Qed.

End Tables.

Lemma other_instance_misses_witness :
  ∃ W',
    invoke ex_run (ex_binder None) "compute" 1 [VInt 10] []
      (invoke_seq ex_run (ex_binder None) "compute" 0
         [([VInt 10], [])] ex_world)
    = ((ex_run ex_compute 1 [VInt 10] []
          (user (invoke_seq ex_run (ex_binder None) "compute" 0
                   [([VInt 10], [])] ex_world))).1, W') ∧
    calls W' = calls (invoke_seq ex_run (ex_binder None) "compute" 0
                        [([VInt 10], [])] ex_world)
               ++ [mkCall ex_compute 1 [VInt 10] []].
Proof.
  apply (other_instance_misses ex_run (ex_binder None) "compute" ex_compute
           0 1 ex_world (mkInstance "D" (Dict ∅) true) ∅
           [([VInt 10], [])] [VInt 10] []).
  - apply ex_attached.
  - apply ex_world_wf.
  - lia.
  - reflexivity.
  - reflexivity.
  - reflexivity.
  - reflexivity.
Defined.

Lemma table_stays_within_capacity_witness :
  table_ok (Z.max 0 <$> maxsize (ex_binder (Some 1%Z)))
    (instance_table "compute"
       (invoke_seq ex_run (ex_binder (Some 1%Z)) "compute" 0
          [([VInt 1], []); ([VInt 2], []); ([VInt 1], [])] ex_world) 0).
Proof.
  apply (table_stays_within_capacity ex_run (ex_binder (Some 1%Z)) "compute"
           ex_compute 0 [([VInt 1], []); ([VInt 2], []); ([VInt 1], [])]
           (ex_attached _) ex_world (mkInstance "C" (Dict ∅) true) ∅).
  - apply ex_world_wf.
  - reflexivity.
  - reflexivity.
  - split; [apply NoDup_nil_2|vm_compute; lia].
Defined.

Lemma capacity_zero_forwards_all_witness :
  calls (invoke_seq ex_run (ex_binder (Some 0%Z)) "compute" 0
           [([VInt 1], []); ([VInt 1], [])] ex_world) =
    calls ex_world ++
    ((λ c, mkCall ex_compute 0 c.1 c.2) <$> [([VInt 1], []); ([VInt 1], [])]) ∧
  instance_table "compute"
    (invoke_seq ex_run (ex_binder (Some 0%Z)) "compute" 0
       [([VInt 1], []); ([VInt 1], [])] ex_world) 0 = [].
Proof.
  apply (capacity_zero_forwards_all ex_run (ex_binder (Some 0%Z)) "compute"
           ex_compute 0 0%Z [([VInt 1], []); ([VInt 1], [])]
           (ex_attached _) eq_refl)
    with (inst := mkInstance "C" (Dict ∅) true) (d := ∅).
  - lia.
  - apply ex_world_wf.
  - reflexivity.
  - reflexivity.
  - reflexivity.
  - reflexivity.
Defined.

Lemma no_weakref_never_binds_witness :
  cm_get (ex_binder None) (Some 4) ex_world =
    (Raise (TypeError (msg_no_weakref "Pair")), ex_world) ∧
  invoke_seq ex_run (ex_binder None) "compute" 4
    [([VInt 1], []); ([VInt 1], [])] ex_world = ex_world ∧
  ∀ args kwds,
    invoke ex_run (ex_binder None) "compute" 4 args kwds
      (invoke_seq ex_run (ex_binder None) "compute" 4
         [([VInt 1], []); ([VInt 1], [])] ex_world) =
      (Raise (TypeError (msg_no_weakref "Pair")), ex_world).
Proof.
  apply (no_weakref_never_binds ex_run (ex_binder None) "compute" ex_compute
           4 ex_world (mkInstance "Pair" (Dict ∅) false) ∅
           [([VInt 1], []); ([VInt 1], [])]).
  - apply ex_attached.
  - reflexivity.
  - reflexivity.
  - reflexivity.
  - reflexivity.
Defined.
